(** * qutebrowser: [components/utils/blockutils.py], class [BlocklistDownloads]

    A shallow embedding of the blocklist download coordinator and the
    properties its specification states about it.

    The Python object is modelled by a record of its attributes.  Its methods
    are written in a small monad that threads the attributes, a log of every
    call the coordinator makes to its collaborators, and a possibly raised
    exception.  A raised exception does not undo the assignments made before
    it, exactly as in Python. *)

From Stdlib Require Import List String Bool Arith Lia.
From Stdlib Require Import Permutation.
Import ListNotations.
Open Scope string_scope.
Open Scope list_scope.

Set Implicit Arguments.

(** ** Values handled by the coordinator *)

(** Exceptions.  [ValueError] is raised by [initiate] on a repeated call and by
    [list.remove] on a missing element; [AssertionError] by the two [assert]
    statements; user callbacks may raise anything. *)
Inductive Exc : Type :=
| ValueError (msg : string)
| AssertionError
| OtherError (tag : string).

(** A [QUrl], observed through the two methods the code calls on it. *)
Record QUrl : Type := { scheme : string; toLocalFile : string }.

(** An [os.DirEntry], observed through [entry.path] and [entry.is_file()].
    [is_file] says whether the entry is a file; the call [entry.is_file()]
    may also fail, with the [OSError] given by [is_file_error]. *)
Record DirEntry : Type :=
  { path : string; is_file : bool; is_file_error : option Exc }.

(** A binary file object; [fileno] is its identity. *)
Record FileObj : Type := { fileno : nat; name : string }.

(** The [fileobj] attribute of a download: [None], the
    [downloads.UnsupportedAttribute] marker, or a real stream. *)
Inductive FileObjAttr : Type :=
| AttrNone
| AttrUnsupported
| AttrIO (f : FileObj).

(** Modelled from the spec: the class [downloads.TempDownload] is declared in
    [qutebrowser.api.downloads], which is not among the sources.  The spec
    gives an operation handle a success flag and a stream handle that is
    valid only on success; these are the two attributes
    [_on_download_finished] reads and [FakeDownload] sets.  [ident] is the
    identity of the Python object. *)
Record TempDownload : Type :=
  { ident : nat; successful : bool; fileobj : FileObjAttr }.

(** Result of the builtin [open(filename, "rb")]: a stream, an [OSError]
    with its [strerror], or an exception of another class (a [ValueError]
    for a file name with a null byte, for one). *)
Inductive OpenResult : Type :=
| Opened
| OSError (strerror : string)
| OpenRaises (e : Exc).

(** The attributes of a [BlocklistDownloads] instance.  [_in_progress] is a
    Python list of object references; a reference is the identity of the
    download object, which is what [list.remove] compares for these classes. *)
Record BlocklistDownloads : Type :=
  { _urls : list QUrl;
    _in_progress : list nat;
    _done_count : nat;
    _finished_registering_downloads : bool;
    _started : bool;
    _finished : bool }.

(** ** Observable behaviour *)

(** One entry per call made to a collaborator (file system, message module,
    download manager, the two user callbacks, the stream), in the order the
    calls happen.  The callback events record whether the callback raised.
    [EvAppend] marks [self._in_progress.append(download)]. *)
Inductive Event : Type :=
| EvScandir (dirname : string)
| EvOpen (filename : string)
| EvMessageError (msg : string)
| EvDownloadTemp (url : QUrl)
| EvConnect (d : nat)
| EvAppend (d : nat)
| EvCbSingle (f : FileObj) (raised : option Exc)
| EvClose (f : FileObj)
| EvCbAll (n : nat) (raised : option Exc).

(** A log entry: the event and the attributes of the coordinator at the
    moment of the call. *)
Record Entry : Type := { ev : Event; at_state : BlocklistDownloads }.

(** What surrounds the coordinator: the file system and the two user supplied
    callbacks.  [scandir] gives the entries a directory holds and
    [scandir_error] the exception [os.scandir] raises on it, if any (a
    [PermissionError] on a directory that may not be read).  A callback is
    given the events so far, so that a closure with its own state is covered;
    it answers [None] when it returns and [Some e] when it raises [e]. *)
Record Env : Type :=
  { isdir : string -> bool;
    scandir : string -> list DirEntry;
    scandir_error : string -> option Exc;
    open_rb : string -> OpenResult;
    user_cb_single : list Event -> FileObj -> option Exc;
    user_cb_all : list Event -> nat -> option Exc }.

(** The whole state: the instance, the allocator of object identities and
    the log. *)
Record World : Type :=
  { self : BlocklistDownloads;
    next_ident : nat;
    trace : list Entry }.

(** ** The monad: state, log and exceptions *)

Inductive Result (A : Type) : Type :=
| Ok (a : A)
| Raised (e : Exc).
Arguments Raised {A} e.

Definition M (A : Type) : Type := World -> Result A * World.

Definition ret {A} (a : A) : M A := fun w => (Ok a, w).

Definition bind {A B} (m : M A) (k : A -> M B) : M B :=
  fun w =>
    match m w with
    | (Ok a, w') => k a w'
    | (Raised e, w') => (Raised e, w')
    end.

Definition raise {A} (e : Exc) : M A := fun w => (Raised e, w).

(** [try: body finally: fin] where [fin] itself does not raise. *)
Definition try_finally {A} (body : M A) (fin : M unit) : M A :=
  fun w =>
    match body w with
    | (r, w') =>
        match fin w' with
        | (Ok _, w'') => (r, w'')
        | (Raised e, w'') => (Raised e, w'')
        end
    end.

Declare Scope monad_scope.
Delimit Scope monad_scope with monad.
Notation "x <- m ;; k" := (bind m (fun x => k))
  (at level 61, m at next level, right associativity) : monad_scope.
Notation "m ;; k" := (bind m (fun _ => k))
  (at level 61, right associativity) : monad_scope.
Open Scope monad_scope.

(** The Python [for x in xs: body(x)]. *)
Fixpoint for_each {A} (xs : list A) (body : A -> M unit) : M unit :=
  match xs with
  | [] => ret tt
  | x :: rest => body x ;; for_each rest body
  end.

Definition gets {A} (proj : BlocklistDownloads -> A) : M A :=
  fun w => (Ok (proj (self w)), w).

Definition modify (f : BlocklistDownloads -> BlocklistDownloads) : M unit :=
  fun w =>
    (Ok tt, {| self := f (self w); next_ident := next_ident w;
               trace := trace w |}).

Definition log (e : Event) : M unit :=
  fun w =>
    (Ok tt, {| self := self w; next_ident := next_ident w;
               trace := trace w ++ [{| ev := e; at_state := self w |}] |}).

(** A new Python object: its identity. *)
Definition fresh : M nat :=
  fun w =>
    (Ok (next_ident w),
     {| self := self w; next_ident := S (next_ident w); trace := trace w |}).

Definition events (w : World) : list Event := map ev (trace w).

(** ** Attribute assignments *)

Definition set_in_progress (l : list nat) (s : BlocklistDownloads) :=
  {| _urls := _urls s; _in_progress := l; _done_count := _done_count s;
     _finished_registering_downloads := _finished_registering_downloads s;
     _started := _started s; _finished := _finished s |}.

Definition set_done_count (n : nat) (s : BlocklistDownloads) :=
  {| _urls := _urls s; _in_progress := _in_progress s; _done_count := n;
     _finished_registering_downloads := _finished_registering_downloads s;
     _started := _started s; _finished := _finished s |}.

Definition set_finished_registering_downloads (b : bool)
    (s : BlocklistDownloads) :=
  {| _urls := _urls s; _in_progress := _in_progress s;
     _done_count := _done_count s;
     _finished_registering_downloads := b;
     _started := _started s; _finished := _finished s |}.

Definition set_started (b : bool) (s : BlocklistDownloads) :=
  {| _urls := _urls s; _in_progress := _in_progress s;
     _done_count := _done_count s;
     _finished_registering_downloads := _finished_registering_downloads s;
     _started := b; _finished := _finished s |}.

Definition set_finished (b : bool) (s : BlocklistDownloads) :=
  {| _urls := _urls s; _in_progress := _in_progress s;
     _done_count := _done_count s;
     _finished_registering_downloads := _finished_registering_downloads s;
     _started := _started s; _finished := b |}.

(** [list.remove(x)]: drops the first occurrence, [None] stands for the
    [ValueError] Python raises when there is none. *)
Fixpoint list_remove (x : nat) (l : list nat) : option (list nat) :=
  match l with
  | [] => None
  | y :: rest =>
      if Nat.eqb y x then Some rest
      else match list_remove x rest with
           | Some rest' => Some (y :: rest')
           | None => None
           end
  end.

Section Coordinator.

Variable env : Env.

(** ** Calls to collaborators *)

Definition call_user_cb_single (f : FileObj) : M unit :=
  fun w =>
    let r := user_cb_single env (events w) f in
    match log (EvCbSingle f r) w with
    | (_, w') =>
        match r with
        | None => (Ok tt, w')
        | Some e => (Raised e, w')
        end
    end.

Definition call_user_cb_all (n : nat) : M unit :=
  fun w =>
    let r := user_cb_all env (events w) n in
    match log (EvCbAll n r) w with
    | (_, w') =>
        match r with
        | None => (Ok tt, w')
        | Some e => (Raised e, w')
        end
    end.

(** Modelled from the spec: [message.error] of [qutebrowser.api.message],
    which is not among the sources.  The spec describes the error reporter
    as fire-and-forget: it takes the message and returns. *)
Definition message_error (msg : string) : M unit := log (EvMessageError msg).

(** [fileobj.close()], taken not to raise. *)
Definition close (f : FileObj) : M unit := log (EvClose f).

(** [os.scandir(filename)] *)
Definition os_scandir (filename : string) : M (list DirEntry) :=
  log (EvScandir filename) ;;
  match scandir_error env filename with
  | Some e => raise e
  | None => ret (scandir env filename)
  end.

(** [entry.is_file()] *)
Definition entry_is_file (entry : DirEntry) : M bool :=
  match is_file_error entry with
  | Some e => raise e
  | None => ret (is_file entry)
  end.

(** [open(filename, "rb")] when it succeeds: a new file object. *)
Definition new_fileobj (filename : string) : M FileObj :=
  i <- fresh ;; ret {| fileno := i; name := filename |}.

(** [FakeDownload(fileobj)]: a new object with [successful = True]. *)
Definition FakeDownload (f : FileObj) : M TempDownload :=
  i <- fresh ;; ret {| ident := i; successful := true; fileobj := AttrIO f |}.

(** Modelled from the spec: [downloads.download_temp] of
    [qutebrowser.api.downloads], which is not among the sources.  The spec
    says the backend is asked for a fetch and answers with an operation
    handle; the handle is a new object whose outcome is not known yet. *)
Definition download_temp (url : QUrl) : M nat :=
  log (EvDownloadTemp url) ;; fresh.

(** [download.finished.connect(functools.partial(self._on_download_finished,
    download))] *)
Definition finished_connect (d : nat) : M unit := log (EvConnect d).

(** [self._in_progress.append(download)] *)
Definition in_progress_append (d : nat) : M unit :=
  log (EvAppend d) ;;
  modify (fun s => set_in_progress (_in_progress s ++ [d]) s).

(** [self._in_progress.remove(download)] *)
Definition in_progress_remove (d : nat) : M unit :=
  l <- gets _in_progress ;;
  match list_remove d l with
  | Some l' => modify (set_in_progress l')
  | None => raise (ValueError "list.remove(x): x not in list")
  end.

(** ** The methods of [BlocklistDownloads] *)

(** [BlocklistDownloads.__init__] *)
Definition init (urls : list QUrl) : World :=
  {| self := {| _urls := urls; _in_progress := []; _done_count := 0;
                _finished_registering_downloads := false;
                _started := false; _finished := false |};
     next_ident := 0;
     trace := [] |}.

(** [BlocklistDownloads._on_download_finished] *)
Definition _on_download_finished (download : TempDownload) : M unit :=
  in_progress_remove (ident download) ;;
  (if successful download then
     modify (fun s => set_done_count (_done_count s + 1) s) ;;
     match fileobj download with
     | AttrUnsupported => raise AssertionError
     | AttrNone => raise AssertionError
     | AttrIO f => try_finally (call_user_cb_single f) (close f)
     end
   else ret tt) ;;
  l <- gets _in_progress ;;
  registered <- gets _finished_registering_downloads ;;
  match l, registered with
  | [], true =>
      modify (set_finished true) ;;
      n <- gets _done_count ;;
      call_user_cb_all n
  | _, _ => ret tt
  end.

(** [BlocklistDownloads._import_local] *)
Definition _import_local (filename : string) : M unit :=
  log (EvOpen filename) ;;
  match open_rb env filename with
  | OSError strerror =>
      message_error
        ("blockutils: Error while reading " ++ filename ++ ": " ++ strerror)
  | OpenRaises e => raise e
  | Opened =>
      f <- new_fileobj filename ;;
      download <- FakeDownload f ;;
      in_progress_append (ident download) ;;
      _on_download_finished download
  end.

(** [BlocklistDownloads._download_blocklist_url] *)
Definition _download_blocklist_url (url : QUrl) : M unit :=
  if String.eqb (scheme url) "file" then
    let filename := toLocalFile url in
    if isdir env filename then
      entries <- os_scandir filename ;;
      for_each entries
        (fun entry =>
           file <- entry_is_file entry ;;
           if (file : bool) then _import_local (path entry) else ret tt)
    else _import_local filename
  else
    download <- download_temp url ;;
    in_progress_append download ;;
    finished_connect download.

(** [BlocklistDownloads.initiate] *)
Definition initiate : M unit :=
  started <- gets _started ;;
  if (started : bool) then
    raise (ValueError "This download has already been initiated")
  else
    modify (set_started true) ;;
    urls <- gets _urls ;;
    if Nat.eqb (List.length urls) 0 then
      n <- gets _done_count ;;
      call_user_cb_all n ;;
      modify (set_finished true)
    else
      for_each urls _download_blocklist_url ;;
      modify (set_finished_registering_downloads true) ;;
      l <- gets _in_progress ;;
      match l with
      | [] =>
          modify (set_finished true) ;;
          n <- gets _done_count ;;
          call_user_cb_all n
      | _ :: _ => ret tt
      end.

End Coordinator.

(** ** Runs of a coordinator *)

(** What can happen to an instance: the caller calls [initiate], or a
    download tells that it has finished, which calls [_on_download_finished]
    (the slot connected in [_download_blocklist_url]). *)
Inductive Action : Type :=
| Initiate
| DownloadFinished (download : TempDownload).

Definition perform (env : Env) (a : Action) : M unit :=
  match a with
  | Initiate => initiate env
  | DownloadFinished d => _on_download_finished env d
  end.

(** The actions happen one after the other.  An exception raised by one of
    them goes to its caller; the instance stays as the action left it. *)
Fixpoint run (env : Env) (acts : list Action) (w : World) : World :=
  match acts with
  | [] => w
  | a :: rest => run env rest (snd (perform env a w))
  end.

Definition reachable (env : Env) (urls : list QUrl) (w : World) : Prop :=
  exists acts, w = run env acts (init urls).

(** ** Reading the log *)

Definition is_cb_all (e : Event) : bool :=
  match e with EvCbAll _ _ => true | _ => false end.

Definition is_cb_single (e : Event) : bool :=
  match e with EvCbSingle _ _ => true | _ => false end.

Definition is_append (e : Event) : bool :=
  match e with EvAppend _ => true | _ => false end.

Definition count (p : Event -> bool) (t : list Entry) : nat :=
  List.length (filter (fun x => p (ev x)) t).

(** Number of calls of the all-done callback. *)
Definition all_done_calls (w : World) : nat := count is_cb_all (trace w).

(** Number of downloads appended to [_in_progress]. *)
Definition dispatched (w : World) : nat := count is_append (trace w).

(** The events that are neither an append, nor a callback, nor a close:
    those logged outside [_on_download_finished] and the append. *)
Definition passive (e : Event) : bool :=
  match e with
  | EvScandir _ | EvOpen _ | EvMessageError _ | EvDownloadTemp _
  | EvConnect _ => true
  | _ => false
  end.

(** A finished download the backend may hand over: a successful one has a
    stream. *)
Definition well_formed (d : TempDownload) : bool :=
  match successful d, fileobj d with
  | true, AttrIO _ => true
  | true, _ => false
  | false, _ => true
  end.

Definition cb_single_returns (env : Env) : Prop :=
  forall h f, user_cb_single env h f = None.

Definition openable (env : Env) (filename : string) : bool :=
  match open_rb env filename with Opened => true | _ => false end.

(** [open] on the file gives a stream or an [OSError], nothing else. *)
Definition open_settles (env : Env) (filename : string) : bool :=
  match open_rb env filename with OpenRaises _ => false | _ => true end.

(** The directory can be listed: [os.scandir] and the [is_file()] of every
    entry return. *)
Definition listable (env : Env) (dirname : string) : bool :=
  match scandir_error env dirname with
  | Some _ => false
  | None =>
      forallb
        (fun entry =>
           match is_file_error entry with Some _ => false | None => true end)
        (scandir env dirname)
  end.

(** A string occurs inside another one. *)
Definition contains (s sub : string) : Prop :=
  exists pre post, s = (pre ++ sub ++ post)%string.

(** The files the coordinator tried to open and the directories it listed,
    in order. *)
Definition opened_files (w : World) : list string :=
  flat_map (fun x => match ev x with EvOpen f => [f] | _ => [] end) (trace w).

Definition scanned_dirs (w : World) : list string :=
  flat_map (fun x => match ev x with EvScandir f => [f] | _ => [] end)
    (trace w).

(** ** Invariants *)

(** An invariant is kept by a computation, whether it returns or raises. *)
Definition preserves {A} (I : World -> Prop) (m : M A) : Prop :=
  forall w, I w -> I (snd (m w)).

(** The counter and the in-flight list never exceed what was appended. *)
Definition count_bounded (w : World) : Prop :=
  _done_count (self w) + List.length (_in_progress (self w)) <= dispatched w.

(** The same bound at the moment of every logged call: [n] appends happened
    before the first entry of [t]. *)
Fixpoint snapshots_bounded (n : nat) (t : list Entry) : Prop :=
  match t with
  | [] => True
  | e :: rest =>
      _done_count (at_state e) + List.length (_in_progress (at_state e)) <= n
      /\ snapshots_bounded (if is_append (ev e) then S n else n) rest
  end.

Definition bounded (w : World) : Prop :=
  count_bounded w /\ snapshots_bounded 0 (trace w).

(** The state in which the all-done callback may be called: nothing in
    flight, and registration over or no source at all. *)
Definition fired_when_idle (e : Entry) : Prop :=
  is_cb_all (ev e) = true ->
  _in_progress (at_state e) = [] /\
  (_finished_registering_downloads (at_state e) = true \/
   _urls (at_state e) = []).


(** What holds between any two actions on an instance. *)
Definition once_inv (w : World) : Prop :=
  (all_done_calls w = 0 \/
   (all_done_calls w = 1 /\ _in_progress (self w) = [] /\
    _started (self w) = true)) /\
  (_started (self w) = false ->
   _finished_registering_downloads (self w) = false /\
   all_done_calls w = 0 /\ _in_progress (self w) = []) /\
  (_finished_registering_downloads (self w) = true ->
   _started (self w) = true) /\
  (_finished (self w) = true -> all_done_calls w = 1) /\
  Forall fired_when_idle (trace w).

(** What holds inside the loop of [initiate]. *)
Definition registering (w : World) : Prop :=
  _started (self w) = true /\
  _finished_registering_downloads (self w) = false /\
  _finished (self w) = false /\
  all_done_calls w = 0 /\
  Forall fired_when_idle (trace w).


(** A state from which nothing more happens. *)
Definition inert (w : World) : Prop :=
  _started (self w) = true /\ _in_progress (self w) = [].


(** The sentence of the specification about a directory, as it is written:
    as many local-file operations as the directory has file entries. *)
Definition one_operation_per_file_entry (env : Env) (u : QUrl) : Prop :=
  List.length (opened_files (snd (initiate env (init [u]))))
  = List.length (filter is_file (scandir env (toLocalFile u))).

(** The sentence of the specification about a list of local files, as it is
    written: the all-done callback is called, with the number of files that
    could be opened. *)
Definition all_done_gets_openable_count (env : Env) (urls : list QUrl)
    : Prop :=
  exists before last r,
    trace (snd (initiate env (init urls))) = before ++ [last]
    /\ ev last
       = EvCbAll (List.length (filter (openable env) (map toLocalFile urls)))
           r.

(** The run of one batch: [initiate], then the downloads finish one after
    the other. *)
Definition batch (env : Env) (urls : list QUrl) (ds : list TempDownload)
    : World :=
  run env (Initiate :: map DownloadFinished ds) (init urls).

Definition is_started (w : World) : Prop := _started (self w) = true.

(** A source that is a local file and not a directory. *)
Definition local_file (env : Env) (u : QUrl) : bool :=
  String.eqb (scheme u) "file" && negb (isdir env (toLocalFile u)).

Definition opens (env : Env) (filename : string) : nat :=
  if openable env filename then 1 else 0.

(** The effect of importing the local files [files], [k] of which could be
    opened, while nothing else is in flight and registration goes on. *)
Definition imported (k : nat) (files : list string) (w w' : World) : Prop :=
  _in_progress (self w') = [] /\
  _finished_registering_downloads (self w') = false /\
  _done_count (self w') = _done_count (self w) + k /\
  count is_cb_single (trace w') = count is_cb_single (trace w) + k /\
  dispatched w' = dispatched w + k /\
  all_done_calls w' = all_done_calls w /\
  opened_files w' = opened_files w ++ files /\
  scanned_dirs w' = scanned_dirs w /\
  _started (self w') = _started (self w) /\
  _finished (self w') = _finished (self w).

(** ** Example surroundings *)

(** Callbacks that always return; [/lists] is a directory with two files and
    a subdirectory; [/lists/locked] cannot be opened. *)
Definition quiet_env : Env :=
  {| isdir := fun p => String.eqb p "/lists";
     scandir := fun _ =>
       [ {| path := "/lists/a"; is_file := true; is_file_error := None |};
         {| path := "/lists/sub"; is_file := false; is_file_error := None |};
         {| path := "/lists/locked"; is_file := true;
            is_file_error := None |} ];
     scandir_error := fun _ => None;
     open_rb := fun p =>
       if String.eqb p "/lists/locked" then OSError "Permission denied"
       else Opened;
     user_cb_single := fun _ _ => None;
     user_cb_all := fun _ _ => None |}.

(** As [quiet_env], with a callback for single downloads that always
    raises. *)
Definition raising_env : Env :=
  {| isdir := isdir quiet_env;
     scandir := scandir quiet_env;
     scandir_error := scandir_error quiet_env;
     open_rb := open_rb quiet_env;
     user_cb_single := fun _ _ => Some (OtherError "parse error");
     user_cb_all := fun _ _ => None |}.

(** As [quiet_env], but [/lists] may not be read: [os.path.isdir] is true
    for it and [os.scandir] raises a [PermissionError]. *)
Definition locked_dir_env : Env :=
  {| isdir := isdir quiet_env;
     scandir := scandir quiet_env;
     scandir_error := fun p =>
       if String.eqb p "/lists" then Some (OtherError "PermissionError")
       else None;
     open_rb := open_rb quiet_env;
     user_cb_single := user_cb_single quiet_env;
     user_cb_all := user_cb_all quiet_env |}.

(** As [quiet_env], but [open] raises a [ValueError], which is no
    [OSError], on [/etc/hosts]. *)
Definition null_byte_env : Env :=
  {| isdir := isdir quiet_env;
     scandir := scandir quiet_env;
     scandir_error := scandir_error quiet_env;
     open_rb := fun p =>
       if String.eqb p "/etc/hosts"
       then OpenRaises (ValueError "embedded null byte")
       else open_rb quiet_env p;
     user_cb_single := user_cb_single quiet_env;
     user_cb_all := user_cb_all quiet_env |}.

Definition file_url (p : string) : QUrl :=
  {| scheme := "file"; toLocalFile := p |}.

Definition https_url : QUrl := {| scheme := "https"; toLocalFile := "" |}.

Definition sample_stream : FileObj := {| fileno := 7; name := "hosts" |}.

(** The surroundings of [tests/unit/components/test_blockutils.py]: every
    blocklist is a readable file and the callbacks return. *)
Definition test_env : Env :=
  {| isdir := fun _ => false;
     scandir := fun _ => [];
     scandir_error := fun _ => None;
     open_rb := fun _ => Opened;
     user_cb_single := fun _ _ => None;
     user_cb_all := fun _ _ => None |}.

(** The ten [file://] URLs of the fixture [pretend_blocklists]. *)
Definition pretend_blocklists : list QUrl :=
  map file_url
    ["/blocklists/malicious-hosts.txt"; "/blocklists/blocklist.list";
     "/blocklists/blocklist0"; "/blocklists/blocklist1";
     "/blocklists/blocklist2"; "/blocklists/blocklist3";
     "/blocklists/blocklist4"; "/blocklists/blocklist5";
     "/blocklists/blocklist6"; "/blocklists/blocklist7"].

(** ** The whitelist check *)

Section Whitelist.

(** [config.val.content.blocking.whitelist] is read from the configuration
    and its elements answer [pattern.matches(url)]; neither the configuration
    nor the pattern class is among the sources, so the list is an argument
    and the patterns are any type with a [matches]. *)
Variable UrlPattern : Type.
Variable matches : UrlPattern -> QUrl -> bool.

(** [is_whitelisted_url] *)
Fixpoint is_whitelisted_url (whitelist : list UrlPattern) (url : QUrl)
    : bool :=
  match whitelist with
  | [] => false
  | pattern :: rest =>
      if matches pattern url then true else is_whitelisted_url rest url
  end.

End Whitelist.

(** ** Further readings of the log *)

(** A source that is handed to the download manager. *)
Definition is_remote (u : QUrl) : bool :=
  negb (String.eqb (scheme u) "file").

(** The local files [_download_blocklist_url] imports for a source: the file
    entries of a directory, the file itself, nothing for a remote source. *)
Definition local_files_of (env : Env) (u : QUrl) : list string :=
  if String.eqb (scheme u) "file" then
    if isdir env (toLocalFile u) then
      map path (filter is_file (scandir env (toLocalFile u)))
    else [toLocalFile u]
  else [].

(** The URLs given to [downloads.download_temp], in order. *)
Definition requested (w : World) : list QUrl :=
  flat_map (fun x => match ev x with EvDownloadTemp u => [u] | _ => [] end)
    (trace w).

(** The streams given to the callback for single downloads, in order. *)
Definition handed (w : World) : list FileObj :=
  flat_map (fun x => match ev x with EvCbSingle f _ => [f] | _ => [] end)
    (trace w).

(** The streams closed, in order. *)
Definition closed (w : World) : list FileObj :=
  flat_map (fun x => match ev x with EvClose f => [f] | _ => [] end)
    (trace w).

(** The arguments of the calls of the all-done callback, in order. *)
Definition all_done_args (w : World) : list nat :=
  flat_map (fun x => match ev x with EvCbAll n _ => [n] | _ => [] end)
    (trace w).

Definition well_formed_action (a : Action) : bool :=
  match a with
  | Initiate => true
  | DownloadFinished d => well_formed d
  end.

(** ** Further invariants *)

(** Every call of the all-done callback gets the number of calls of the
    callback for single downloads made before it; [k] such calls happened
    before the first entry of [t]. *)
Fixpoint totals_agree (k : nat) (t : list Entry) : Prop :=
  match t with
  | [] => True
  | e :: rest =>
      match ev e with EvCbAll n _ => n = k | _ => True end
      /\ totals_agree (if is_cb_single (ev e) then S k else k) rest
  end.

Definition counted (w : World) : Prop :=
  _done_count (self w) = count is_cb_single (trace w)
  /\ totals_agree 0 (trace w).

Definition streams_closed (w : World) : Prop := closed w = handed w.

(** The downloads in flight are distinct objects that exist. *)
Definition alloc_ok (w : World) : Prop :=
  NoDup (_in_progress (self w))
  /\ Forall (fun i => i < next_ident w) (_in_progress (self w)).

(** The object [i] exists and is not in flight. *)
Definition retired (i : nat) (w : World) : Prop :=
  i < next_ident w /\ ~ In i (_in_progress (self w)).

Definition alloc_inv (o : option nat) (w : World) : Prop :=
  alloc_ok w /\ match o with Some i => retired i w | None => True end.

(** The effect of registering sources while registration goes on: [rem] are
    the remote sources handed to the download manager and [files] the local
    files imported, in order. *)
Definition registers_as (env : Env) (rem : list QUrl) (files : list string)
    (w w' : World) : Prop :=
  List.length (_in_progress (self w'))
  = List.length (_in_progress (self w)) + List.length rem
  /\ requested w' = requested w ++ rem
  /\ opened_files w' = opened_files w ++ files
  /\ map name (handed w') = map name (handed w) ++ filter (openable env) files
  /\ _done_count (self w')
     = _done_count (self w) + List.length (filter (openable env) files)
  /\ all_done_args w' = all_done_args w
  /\ _finished_registering_downloads (self w') = false
  /\ Forall (fun i => i < next_ident w') (_in_progress (self w')).

(** Registration goes on and the downloads in flight are existing
    objects. *)
Definition ready (w : World) : Prop :=
  _finished_registering_downloads (self w) = false
  /\ Forall (fun i => i < next_ident w) (_in_progress (self w)).

(** ** Generic facts *)

Lemma count_app p t1 t2 : count p (t1 ++ t2) = count p t1 + count p t2.
Proof. unfold count. now rewrite filter_app, length_app. Qed.

Lemma count_one p e s :
  count p [{| ev := e; at_state := s |}] = if p e then 1 else 0.
Proof. unfold count. cbn. now destruct (p e). Qed.

Lemma list_remove_length x l l' :
  list_remove x l = Some l' -> List.length l = S (List.length l').
Proof.
  revert l'. induction l as [|y rest IH]; intros l' H; cbn in H.
  - discriminate.
  - destruct (Nat.eqb y x).
    + now inversion H.
    + destruct (list_remove x rest) as [r|]; [|discriminate].
      inversion H; subst. cbn. now rewrite (IH r).
Qed.

Lemma list_remove_last x l : exists l', list_remove x (l ++ [x]) = Some l'.
Proof.
  induction l as [|y rest [l' IH]]; cbn.
  - rewrite Nat.eqb_refl. now exists [].
  - destruct (Nat.eqb y x); [now exists (rest ++ [x])|].
    rewrite IH. now exists (y :: l').
Qed.

Lemma list_remove_In x l : In x l -> exists l', list_remove x l = Some l'.
Proof.
  induction l as [|y rest IH]; cbn; [easy|].
  intros [->|H].
  - rewrite Nat.eqb_refl. now exists rest.
  - destruct (Nat.eqb y x); [now exists rest|].
    destruct (IH H) as [l' ->]. now exists (y :: l').
Qed.

Arguments count : simpl never.

Ltac unfold_finished :=
  unfold _on_download_finished, in_progress_remove, in_progress_append,
    try_finally, call_user_cb_single, call_user_cb_all, close, bind, gets,
    modify, raise, ret, log, events; cbn.

(** Case analysis on the innermost scrutinee of the goal. *)
Ltac break_inner :=
  match goal with
  | |- context [match ?x with _ => _ end] =>
      lazymatch x with
      | context [match _ with _ => _ end] => fail
      | _ => destruct x eqn:?
      end
  end.

Ltac counts :=
  unfold all_done_calls, dispatched in *; cbn in *;
  rewrite ?count_app, ?count_one; cbn.

Section Preserves.

Context {I : World -> Prop}.

Lemma preserves_ret A (a : A) : preserves I (ret a).
Proof. now intros w H. Qed.

Lemma preserves_raise A e : preserves I (@raise A e).
Proof. now intros w H. Qed.

Lemma preserves_gets A (proj : BlocklistDownloads -> A) :
  preserves I (gets proj).
Proof. now intros w H. Qed.

Lemma preserves_bind A B (m : M A) (k : A -> M B) :
  preserves I m -> (forall a, preserves I (k a)) -> preserves I (bind m k).
Proof.
  intros Hm Hk w H. unfold bind.
  specialize (Hm w H). destruct (m w) as [[a|e] w']; cbn in *.
  - now apply Hk.
  - assumption.
Qed.

Lemma preserves_try_finally A (body : M A) fin :
  preserves I body -> preserves I fin -> preserves I (try_finally body fin).
Proof.
  intros Hb Hf w H. unfold try_finally.
  specialize (Hb w H). destruct (body w) as [r w']; cbn in Hb.
  specialize (Hf w' Hb). now destruct (fin w') as [[u|e] w''].
Qed.

Lemma preserves_for_each A (xs : list A) body :
  (forall x, preserves I (body x)) -> preserves I (for_each xs body).
Proof.
  intros Hb. induction xs as [|x rest IH]; cbn.
  - apply preserves_ret.
  - apply preserves_bind; auto.
Qed.

(** The three methods that register downloads keep every invariant that
    the allocator, the passive log entries, the append and the resolution
    keep. *)
Variable env : Env.
Hypothesis I_fresh : preserves I fresh.
Hypothesis I_log : forall e, passive e = true -> preserves I (log e).
Hypothesis I_append : forall d, preserves I (in_progress_append d).
Hypothesis I_finished : forall d, preserves I (_on_download_finished env d).

Lemma preserves_import_local filename :
  preserves I (_import_local env filename).
Proof.
  unfold _import_local.
  apply preserves_bind; [now apply I_log|intros _].
  destruct (open_rb env filename).
  - apply preserves_bind; [|intros f].
    { apply preserves_bind; [assumption|intros; apply preserves_ret]. }
    apply preserves_bind; [|intros d].
    { apply preserves_bind; [assumption|intros; apply preserves_ret]. }
    apply preserves_bind; auto.
  - now apply I_log.
  - apply preserves_raise.
Qed.

Lemma preserves_scandir filename : preserves I (os_scandir env filename).
Proof.
  unfold os_scandir.
  apply preserves_bind; [now apply I_log|intros _].
  destruct (scandir_error env filename);
    [apply preserves_raise|apply preserves_ret].
Qed.

Lemma preserves_is_file entry : preserves I (entry_is_file entry).
Proof.
  unfold entry_is_file.
  destruct (is_file_error entry); [apply preserves_raise|apply preserves_ret].
Qed.

Lemma preserves_download_blocklist_url url :
  preserves I (_download_blocklist_url env url).
Proof.
  unfold _download_blocklist_url.
  destruct (String.eqb (scheme url) "file").
  - destruct (isdir env (toLocalFile url)).
    + apply preserves_bind; [apply preserves_scandir|intros entries].
      apply preserves_for_each. intros entry.
      apply preserves_bind; [apply preserves_is_file|intros file].
      destruct file; [apply preserves_import_local|apply preserves_ret].
    + apply preserves_import_local.
  - apply preserves_bind; [|intros d].
    { apply preserves_bind; [now apply I_log|intros; assumption]. }
    apply preserves_bind; [apply I_append|intros _].
    now apply I_log.
Qed.

Lemma preserves_registration urls :
  preserves I (for_each urls (_download_blocklist_url env)).
Proof.
  apply preserves_for_each. exact preserves_download_blocklist_url.
Qed.

End Preserves.

(** ** The counter never exceeds the number of appended downloads *)

Lemma snapshots_bounded_snoc n t e :
  snapshots_bounded n (t ++ [e]) <->
  snapshots_bounded n t /\
  _done_count (at_state e) + List.length (_in_progress (at_state e))
  <= n + count is_append t.
Proof.
  revert n. induction t as [|x rest IH]; intros n; cbn.
  - unfold count; cbn. rewrite Nat.add_0_r. tauto.
  - rewrite IH. unfold count; cbn.
    destruct (is_append (ev x)); cbn; rewrite <- ?plus_n_Sm; tauto.
Qed.

Ltac bounded_leaf :=
  unfold bounded, count_bounded in *; counts;
  rewrite ?snapshots_bounded_snoc, ?length_app; cbn; counts;
  intuition (try lia).

Lemma bounded_fresh : preserves bounded fresh.
Proof. now intros w H. Qed.

Lemma bounded_log e : is_append e = false -> preserves bounded (log e).
Proof. intros He w H. unfold log. cbn. bounded_leaf; rewrite He; lia. Qed.

Lemma bounded_modify f :
  (forall s, _done_count (f s) = _done_count s) ->
  (forall s, _in_progress (f s) = _in_progress s) ->
  preserves bounded (modify f).
Proof.
  intros H1 H2 w H. unfold modify, bounded, count_bounded in *. cbn.
  now rewrite H1, H2.
Qed.

Lemma bounded_append d : preserves bounded (in_progress_append d).
Proof.
  intros w H. unfold_finished. bounded_leaf.
Qed.

Lemma bounded_cb_all env n : preserves bounded (call_user_cb_all env n).
Proof.
  intros w H. unfold_finished.
  destruct (user_cb_all env (map ev (trace w)) n); cbn; bounded_leaf.
Qed.

Lemma bounded_finished env d :
  preserves bounded (_on_download_finished env d).
Proof.
  intros w H. unfold_finished.
  destruct (list_remove (ident d) (_in_progress (self w))) as [l|] eqn:E;
    cbn; [|assumption].
  apply list_remove_length in E.
  repeat (break_inner; cbn in * ); subst; bounded_leaf.
Qed.

Lemma passive_not_append e : passive e = true -> is_append e = false.
Proof. now destruct e. Qed.

Lemma bounded_initiate env : preserves bounded (initiate env).
Proof.
  unfold initiate.
  apply preserves_bind; [apply preserves_gets|intros started].
  destruct started; [apply preserves_raise|].
  apply preserves_bind; [now apply bounded_modify|intros _].
  apply preserves_bind; [apply preserves_gets|intros urls].
  destruct (Nat.eqb (List.length urls) 0).
  - apply preserves_bind; [apply preserves_gets|intros n].
    apply preserves_bind; [apply bounded_cb_all|intros _].
    now apply bounded_modify.
  - apply preserves_bind; [|intros _].
    { apply preserves_registration.
      - apply bounded_fresh.
      - intros e He. apply bounded_log. now apply passive_not_append.
      - apply bounded_append.
      - apply bounded_finished. }
    apply preserves_bind; [now apply bounded_modify|intros _].
    apply preserves_bind; [apply preserves_gets|intros l].
    destruct l; [|apply preserves_ret].
    apply preserves_bind; [now apply bounded_modify|intros _].
    apply preserves_bind; [apply preserves_gets|intros n].
    apply bounded_cb_all.
Qed.

Lemma bounded_run env acts w : bounded w -> bounded (run env acts w).
Proof.
  revert w. induction acts as [|a rest IH]; intros w H; cbn; [assumption|].
  apply IH. destruct a; cbn.
  - now apply bounded_initiate.
  - now apply bounded_finished.
Qed.

(** ** The all-done callback is called at most once *)

Lemma Forall_snoc A (P : A -> Prop) t e :
  Forall P t -> P e -> Forall P (t ++ [e]).
Proof. intros Ht He. apply Forall_app. split; [assumption|now constructor]. Qed.

Ltac idle_leaf :=
  unfold once_inv, registering in *; counts;
  repeat match goal with H : _ /\ _ |- _ => destruct H end;
  repeat match goal with |- _ /\ _ => split end;
  repeat (apply Forall_snoc);
  try assumption; try congruence; try lia;
  try solve [unfold fired_when_idle; cbn; intros;
             first [discriminate | intuition (try congruence; try lia)]].

Lemma passive_not_cb_all e : passive e = true -> is_cb_all e = false.
Proof. now destruct e. Qed.

Lemma registering_fresh : preserves registering fresh.
Proof. now intros w H. Qed.

Lemma registering_log e : passive e = true -> preserves registering (log e).
Proof.
  intros He w H. apply passive_not_cb_all in He. unfold log.
  destruct H as (H1 & H2 & H3 & H4 & H5). repeat split; cbn; auto.
  - counts. rewrite He. lia.
  - apply Forall_app; split; auto. constructor; [|constructor].
    unfold fired_when_idle; cbn. congruence.
Qed.

Lemma registering_append d : preserves registering (in_progress_append d).
Proof. intros w H. unfold_finished. idle_leaf. Qed.

Lemma registering_finished env d :
  preserves registering (_on_download_finished env d).
Proof.
  intros w H. unfold_finished.
  destruct (list_remove (ident d) (_in_progress (self w))) as [l|] eqn:E;
    cbn; [|assumption].
  repeat (break_inner; cbn in * ); subst; idle_leaf.
Qed.

Lemma registering_registration env urls :
  preserves registering (for_each urls (_download_blocklist_url env)).
Proof.
  apply preserves_registration.
  - apply registering_fresh.
  - apply registering_log.
  - apply registering_append.
  - apply registering_finished.
Qed.

Lemma once_inv_init urls : once_inv (init urls).
Proof.
  unfold once_inv, init, all_done_calls, count. cbn.
  repeat split; auto; discriminate.
Qed.

Lemma once_inv_finished env d :
  preserves once_inv (_on_download_finished env d).
Proof.
  intros w H. unfold_finished.
  destruct (list_remove (ident d) (_in_progress (self w))) as [l|] eqn:E;
    cbn; [|assumption].
  assert (Hne : _in_progress (self w) <> []).
  { intros Hnil. rewrite Hnil in E. discriminate. }
  repeat (break_inner; cbn in * ); subst; idle_leaf.
Qed.

Lemma once_inv_initiate env : preserves once_inv (initiate env).
Proof.
  intros w H. unfold initiate, bind, gets, modify, ret, raise. cbn.
  destruct (_started (self w)) eqn:Hs; cbn; [assumption|].
  destruct H as (H1 & H2 & H3 & H4 & H5).
  destruct (H2 Hs) as (Hr & Hc & Hip).
  assert (Hf : _finished (self w) = false).
  { destruct (_finished (self w)); [|reflexivity].
    specialize (H4 eq_refl). lia. }
  clear H1 H2 H3 H4.
  destruct (_urls (self w)) as [|u urls] eqn:Hu; cbn -[for_each].
  - unfold_finished. break_inner; cbn; idle_leaf.
  - match goal with
    | |- context [for_each ?xs ?f ?w1] =>
        assert (Hreg : registering w1) by idle_leaf;
        apply (registering_registration env xs) in Hreg;
        destruct (for_each xs f w1) as [[[]|e] w2]
    end; cbn in *; [|idle_leaf].
    repeat (break_inner; cbn in * ); subst; idle_leaf.
Qed.

Lemma once_inv_run env acts w : once_inv w -> once_inv (run env acts w).
Proof.
  revert w. induction acts as [|a rest IH]; intros w H; cbn; [assumption|].
  apply IH. destruct a; cbn.
  - now apply once_inv_initiate.
  - now apply once_inv_finished.
Qed.

(** ** After [initiate], the callback is called once nothing is in flight *)




Lemma registered_finished env d w :
  _finished_registering_downloads (self (snd (_on_download_finished env d w)))
  = _finished_registering_downloads (self w).
Proof.
  unfold_finished. repeat (break_inner; cbn in * ); congruence.
Qed.

Lemma registered_resolutions env ds w :
  _finished_registering_downloads
    (self (run env (map DownloadFinished ds) w))
  = _finished_registering_downloads (self w).
Proof.
  revert w. induction ds as [|d rest IH]; intros w; cbn; [reflexivity|].
  now rewrite IH, registered_finished.
Qed.

(** ** Importing local files *)

Lemma imported_refl w :
  _in_progress (self w) = [] ->
  _finished_registering_downloads (self w) = false ->
  imported 0 [] w w.
Proof.
  intros H1 H2. unfold imported. rewrite app_nil_r, !Nat.add_0_r. tauto.
Qed.

Lemma imported_trans k1 k2 f1 f2 w1 w2 w3 :
  imported k1 f1 w1 w2 -> imported k2 f2 w2 w3 ->
  imported (k1 + k2) (f1 ++ f2) w1 w3.
Proof.
  unfold imported. intros H1 H2.
  repeat match goal with H : _ /\ _ |- _ => destruct H end.
  repeat split; try congruence; try lia.
  rewrite app_assoc. congruence.
Qed.

Lemma import_local_idle env filename w :
  cb_single_returns env ->
  open_settles env filename = true ->
  _in_progress (self w) = [] ->
  _finished_registering_downloads (self w) = false ->
  exists w', _import_local env filename w = (Ok tt, w') /\
             imported (opens env filename) [filename] w w'.
Proof.
  intros Hcb Hopen Hip Hr.
  unfold _import_local, opens, openable, message_error, new_fileobj,
    FakeDownload, fresh.
  unfold open_settles in Hopen.
  unfold_finished. destruct (open_rb env filename); cbn; [| |discriminate].
  - rewrite Hip. cbn. rewrite Nat.eqb_refl. cbn. rewrite Hcb. cbn.
    rewrite Hr. eexists; split; [reflexivity|].
    unfold imported, opened_files, scanned_dirs. counts.
    rewrite !flat_map_app. cbn. rewrite !app_nil_r.
    repeat split; auto; lia.
  - eexists; split; [reflexivity|].
    unfold imported, opened_files, scanned_dirs. counts.
    rewrite !flat_map_app. cbn. rewrite !app_nil_r.
    repeat split; auto; lia.
Qed.

Lemma length_filter_cons A (p : A -> bool) x l :
  List.length (filter p (x :: l))
  = (if p x then 1 else 0) + List.length (filter p l).
Proof. cbn. now destruct (p x). Qed.

Lemma import_entries_idle env entries w :
  cb_single_returns env ->
  forallb
    (fun entry =>
       match is_file_error entry with Some _ => false | None => true end)
    entries = true ->
  forallb (open_settles env) (map path (filter is_file entries)) = true ->
  _in_progress (self w) = [] ->
  _finished_registering_downloads (self w) = false ->
  exists w',
    for_each entries
      (fun entry =>
         file <- entry_is_file entry ;;
         if (file : bool) then _import_local env (path entry) else ret tt) w
    = (Ok tt, w') /\
    imported
      (List.length
         (filter (openable env) (map path (filter is_file entries))))
      (map path (filter is_file entries)) w w'.
Proof.
  intros Hcb. revert w.
  induction entries as [|x rest IH]; intros w Hlist Hopen Hip Hr;
    cbn [for_each].
  - exists w. split; [reflexivity|]. now apply imported_refl.
  - cbn [forallb] in Hlist. apply andb_prop in Hlist as [Hx Hlist].
    unfold bind, entry_is_file. cbn [filter] in *.
    destruct (is_file_error x); [discriminate|]. unfold ret at 1.
    destruct (is_file x).
    + cbn [map forallb] in Hopen. apply andb_prop in Hopen as [Ho Hopen].
      destruct (@import_local_idle env (path x) w Hcb Ho Hip Hr)
        as (w1 & -> & H1).
      assert (H1' := H1). destruct H1' as (Hip1 & Hr1 & _).
      destruct (IH w1 Hlist Hopen Hip1 Hr1) as (w2 & Hloop & H2).
      unfold bind, entry_is_file in Hloop. rewrite Hloop.
      exists w2. split; [reflexivity|].
      cbn [map]. rewrite length_filter_cons.
      apply (imported_trans H1 H2).
    + unfold ret at 1.
      destruct (IH w Hlist Hopen Hip Hr) as (w2 & Hloop & H2).
      unfold bind, entry_is_file in Hloop. rewrite Hloop.
      now exists w2.
Qed.

Lemma import_files_idle env urls w :
  cb_single_returns env ->
  forallb (local_file env) urls = true ->
  forallb (open_settles env) (map toLocalFile urls) = true ->
  _in_progress (self w) = [] ->
  _finished_registering_downloads (self w) = false ->
  exists w',
    for_each urls (_download_blocklist_url env) w = (Ok tt, w') /\
    imported
      (List.length (filter (openable env) (map toLocalFile urls)))
      (map toLocalFile urls) w w'.
Proof.
  intros Hcb. revert w.
  induction urls as [|u rest IH]; intros w Hall Hopen Hip Hr;
    cbn [for_each].
  - exists w. split; [reflexivity|]. now apply imported_refl.
  - cbn in Hall. apply andb_prop in Hall as [Hu Hrest].
    cbn [map forallb] in Hopen. apply andb_prop in Hopen as [Ho Hopen].
    unfold local_file in Hu. apply andb_prop in Hu as [Hscheme Hdir].
    apply negb_true_iff in Hdir.
    unfold bind, _download_blocklist_url at 1. rewrite Hscheme, Hdir.
    destruct (@import_local_idle env (toLocalFile u) w Hcb Ho Hip Hr)
      as (w1 & -> & H1).
    assert (H1' := H1). destruct H1' as (Hip1 & Hr1 & _).
    destruct (IH w1 Hrest Hopen Hip1 Hr1) as (w2 & -> & H2).
    exists w2. split; [reflexivity|].
    cbn [map]. rewrite length_filter_cons.
    apply (imported_trans H1 H2).
Qed.

(** C9, as the specification words it, fails: [open] raises a [ValueError]
    on the only file of the list; [_import_local] catches [OSError] only, so
    [initiate] raises and the all-done callback is not called.  Here the
    callbacks return. *)
Lemma all_done_missed_when_open_raises :
  forallb (local_file null_byte_env) [file_url "/etc/hosts"] = true
  /\ fst (initiate null_byte_env (init [file_url "/etc/hosts"]))
     = Raised (ValueError "embedded null byte")
  /\ ~ all_done_gets_openable_count null_byte_env [file_url "/etc/hosts"].
Proof.
  split; [reflexivity|]. split; [reflexivity|].
  unfold all_done_gets_openable_count.
  intros (before & last & r & Ht & Hev). vm_compute in Ht.
  destruct before as [|b [|c before]]; cbn in Ht.
  - inversion Ht; subst. discriminate.
  - inversion Ht.
  - inversion Ht.
Qed.

(** C9, amended.  A non-empty list of local files (no directory, no remote
    source), each of which [open] either opens or refuses with an [OSError],
    with a callback for single downloads that returns: [initiate] ends with
    the call of the all-done callback, its argument is the number of files
    that could be opened, it is the only such call, and the calls of the
    callback for single downloads, one per opened file, are all over before
    it. *)
Theorem local_files_all_done_count env urls :
  cb_single_returns env ->
  urls <> [] ->
  forallb (local_file env) urls = true ->
  forallb (open_settles env) (map toLocalFile urls) = true ->
  exists before last r,
    trace (snd (initiate env (init urls))) = before ++ [last] /\
    ev last
    = EvCbAll (List.length (filter (openable env) (map toLocalFile urls))) r
    /\ count is_cb_all before = 0
    /\ count is_cb_single before
       = List.length (filter (openable env) (map toLocalFile urls)).
Proof.
  intros Hcb Hne Hall Hopen.
  remember (List.length (filter (openable env) (map toLocalFile urls)))
    as n eqn:Hn.
  destruct urls as [|u rest]; [congruence|].
  unfold initiate, bind, gets, modify. cbn -[for_each forallb].
  match goal with
  | |- context [for_each ?xs ?f ?w1] =>
      destruct (@import_files_idle env xs w1 Hcb Hall Hopen eq_refl eq_refl)
        as (w2 & -> & H)
  end.
  rewrite <- Hn in H.
  destruct H as (Hip & Hr & Hdone & Hsingle & _ & Hall_done & _).
  rewrite Hip. unfold_finished.
  change (count is_cb_single []) with 0 in Hsingle.
  change (count is_cb_all (trace w2) = 0) in Hall_done.
  cbn in Hdone. rewrite Hdone.
  destruct (user_cb_all env (map ev (trace w2)) n) eqn:E; cbn;
    eexists (trace w2), _, _; (split; [reflexivity|]); cbn; auto.
Qed.

Lemma local_files_all_done_count_witness :
  exists before last r,
    trace (snd (initiate quiet_env
                  (init [file_url "/etc/hosts"; file_url "/lists/locked"])))
    = before ++ [last] /\
    ev last = EvCbAll 1 r /\
    count is_cb_all before = 0 /\ count is_cb_single before = 1.
Proof.
  apply (@local_files_all_done_count quiet_env
           [file_url "/etc/hosts"; file_url "/lists/locked"]).
  - intros h f. reflexivity.
  - discriminate.
  - reflexivity.
  - reflexivity.
Defined.

(** C4, as the specification words it, fails: [/lists] holds two file
    entries but may not be read, [os.scandir] raises out of [initiate] and
    no local-file operation is created.  Here the callbacks return. *)
Lemma no_operation_for_unreadable_directory :
  isdir locked_dir_env "/lists" = true
  /\ List.length (filter is_file (scandir locked_dir_env "/lists")) = 2
  /\ opened_files (snd (initiate locked_dir_env (init [file_url "/lists"])))
     = []
  /\ ~ one_operation_per_file_entry locked_dir_env (file_url "/lists").
Proof.
  repeat split.
  unfold one_operation_per_file_entry. vm_compute. discriminate.
Qed.

(** C4, amended.  One source, a local directory with [K] entries that are
    files (and any other entries), which can be listed ([os.scandir] and the
    [is_file()] of its entries return) and whose files [open] either opens
    or refuses with an [OSError], with a callback for single downloads that
    returns: [_import_local] runs once per file entry, on the paths of the
    file entries in the order [os.scandir] gives them, so [K] times; the only
    directory listed is the source itself; and a download is appended for
    each of those files that could be opened. *)
Theorem directory_one_operation_per_file env u K :
  cb_single_returns env ->
  scheme u = "file" ->
  isdir env (toLocalFile u) = true ->
  listable env (toLocalFile u) = true ->
  forallb (open_settles env)
    (map path (filter is_file (scandir env (toLocalFile u)))) = true ->
  List.length (filter is_file (scandir env (toLocalFile u))) = K ->
  opened_files (snd (initiate env (init [u])))
  = map path (filter is_file (scandir env (toLocalFile u))) /\
  List.length (opened_files (snd (initiate env (init [u])))) = K /\
  scanned_dirs (snd (initiate env (init [u]))) = [toLocalFile u] /\
  dispatched (snd (initiate env (init [u])))
  = List.length
      (filter (openable env) (opened_files (snd (initiate env (init [u]))))).
Proof.
  intros Hcb Hscheme Hdir Hlist Hsettle HK.
  unfold listable in Hlist.
  destruct (scandir_error env (toLocalFile u)) eqn:Hscan_ok;
    [discriminate|].
  remember (initiate env (init [u])) as res eqn:Hres.
  unfold initiate, bind, gets, modify in Hres.
  cbn -[for_each _download_blocklist_url] in Hres.
  unfold for_each at 1, _download_blocklist_url, os_scandir, bind in Hres.
  rewrite Hscheme, Hdir in Hres. cbn -[for_each] in Hres.
  rewrite Hscan_ok in Hres. unfold ret at 1 in Hres.
  match type of Hres with
  | context [for_each ?xs ?f ?w1] =>
      destruct (@import_entries_idle env xs w1 Hcb Hlist Hsettle
                  eq_refl eq_refl)
        as (w2 & Hloop & H);
      unfold bind in Hloop; rewrite Hloop in Hres
  end.
  destruct H as (Hip & _ & _ & _ & Hdisp & _ & Hopen & Hscan & _).
  unfold ret in Hres. cbn in Hres. rewrite Hip in Hres.
  unfold call_user_cb_all, log in Hres. cbn in Hres.
  assert (Htrace : exists last,
             trace (snd res) = trace w2 ++ [last] /\
             is_cb_all (ev last) = true).
  { subst res. break_inner; cbn; eexists; split; reflexivity. }
  destruct Htrace as (last & Htrace & Hlast). clear Hres.
  unfold opened_files, scanned_dirs, dispatched in *. cbn in *.
  rewrite Htrace, !flat_map_app, count_app. cbn.
  unfold count at 2. cbn.
  destruct (ev last); try discriminate. cbn.
  rewrite !app_nil_r, Hopen, Hscan, Hdisp, length_map.
  unfold count at 1. cbn. repeat split; auto.
Qed.

Lemma directory_one_operation_per_file_witness :
  opened_files (snd (initiate quiet_env (init [file_url "/lists"])))
  = ["/lists/a"; "/lists/locked"] /\
  List.length
    (opened_files (snd (initiate quiet_env (init [file_url "/lists"])))) = 2
  /\ scanned_dirs (snd (initiate quiet_env (init [file_url "/lists"])))
     = ["/lists"]
  /\ dispatched (snd (initiate quiet_env (init [file_url "/lists"]))) = 1.
Proof.
  apply (@directory_one_operation_per_file quiet_env (file_url "/lists") 2).
  - intros h f. reflexivity.
  - reflexivity.
  - reflexivity.
  - reflexivity.
  - reflexivity.
  - reflexivity.
Defined.

Lemma string_app_assoc (a b c : string) :
  ((a ++ b) ++ c = a ++ b ++ c)%string.
Proof. induction a as [|x a IH]; cbn; congruence. Qed.

Lemma string_app_nil_r (a : string) : (a ++ "" = a)%string.
Proof. induction a as [|x a IH]; cbn; congruence. Qed.

(** C5.  A local file whose [open] fails with an [OSError]: [_import_local]
    returns, and all it does is to report
    "blockutils: Error while reading <filename>: <strerror>" to
    [message.error]; that message contains the file name and the error
    message of the operating system.  The attributes of the coordinator are
    untouched (nothing is put in flight, the counter keeps its value) and
    the callback for single downloads is not called. *)
Theorem unopenable_file_is_skipped env filename strerror w :
  open_rb env filename = OSError strerror ->
  exists msg,
    _import_local env filename w
    = (Ok tt,
       {| self := self w; next_ident := next_ident w;
          trace := trace w ++
                   [{| ev := EvOpen filename; at_state := self w |};
                    {| ev := EvMessageError msg; at_state := self w |}] |})
    /\ contains msg filename /\ contains msg strerror
    /\ self (snd (_import_local env filename w)) = self w
    /\ dispatched (snd (_import_local env filename w)) = dispatched w
    /\ count is_cb_single (trace (snd (_import_local env filename w)))
       = count is_cb_single (trace w).
Proof.
  intros Hopen.
  exists ("blockutils: Error while reading " ++ filename ++ ": " ++ strerror)%string.
  assert (E : _import_local env filename w
    = (Ok tt,
       {| self := self w; next_ident := next_ident w;
          trace := trace w ++
                   [{| ev := EvOpen filename; at_state := self w |};
                    {| ev := EvMessageError
                               ("blockutils: Error while reading "
                                ++ filename ++ ": " ++ strerror)%string;
                       at_state := self w |}] |})).
  { unfold _import_local, message_error, bind, log. rewrite Hopen. cbn.
    now rewrite <- app_assoc. }
  rewrite E. cbn -[String.append]. repeat split.
  - exists "blockutils: Error while reading "%string,
      (": " ++ strerror)%string. reflexivity.
  - exists ("blockutils: Error while reading " ++ filename ++ ": ")%string,
      ""%string.
    now rewrite string_app_nil_r, !string_app_assoc.
  - unfold dispatched. cbn. rewrite count_app. unfold count at 2. cbn. lia.
  - rewrite count_app. unfold count at 2. cbn. lia.
Qed.

Lemma unopenable_file_is_skipped_witness :
  exists msg,
    _import_local quiet_env "/lists/locked" (init [file_url "/lists/locked"])
    = (Ok tt,
       {| self := self (init [file_url "/lists/locked"]);
          next_ident := 0;
          trace := [{| ev := EvOpen "/lists/locked";
                       at_state := self (init [file_url "/lists/locked"]) |};
                    {| ev := EvMessageError msg;
                       at_state := self (init [file_url "/lists/locked"]) |}]
       |})
    /\ contains msg "/lists/locked" /\ contains msg "Permission denied".
Proof.
  destruct (@unopenable_file_is_skipped quiet_env "/lists/locked"
              "Permission denied" (init [file_url "/lists/locked"]) eq_refl)
    as (msg & H1 & H2 & H3 & _).
  exists msg. repeat split; assumption.
Defined.

(** C6.  A successful download in flight is resolved: the stream given to
    the callback for single downloads is closed right after the call,
    whether the callback returned or raised.  When it raised, the close is
    the last thing the resolution does and the exception is the outcome of
    the resolution.  When it returned, the resolution goes on to the check
    for the all-done callback. *)
Theorem stream_closed_on_every_exit env d f w :
  successful d = true ->
  fileobj d = AttrIO f ->
  In (ident d) (_in_progress (self w)) ->
  exists s rest,
    trace (snd (_on_download_finished env d w))
    = trace w
      ++ {| ev := EvCbSingle f (user_cb_single env (events w) f);
            at_state := s |}
      :: {| ev := EvClose f; at_state := s |}
      :: rest
    /\ (forall e, user_cb_single env (events w) f = Some e ->
                  fst (_on_download_finished env d w) = Raised e
                  /\ rest = [])
    /\ (user_cb_single env (events w) f = None ->
        Forall (fun x => is_cb_all (ev x) = true) rest).
Proof.
  intros Hs Hf Hin. unfold_finished.
  destruct (list_remove_In _ _ Hin) as [l ->]. rewrite Hs, Hf. cbn.
  destruct (user_cb_single env (map ev (trace w)) f) as [e|] eqn:E; cbn.
  - eexists _, []. rewrite <- app_assoc. cbn. split; [reflexivity|].
    split; [intros e' He'; now inversion He'|discriminate].
  - destruct l; cbn.
    + destruct (_finished_registering_downloads (self w)); cbn.
      * destruct (user_cb_all env _ _); cbn;
          eexists _, [_]; rewrite <- !app_assoc; cbn;
          (split; [reflexivity|]);
          (split; [discriminate|intros _; now repeat constructor]).
      * eexists _, []. rewrite <- app_assoc. cbn. split; [reflexivity|].
        split; [discriminate|constructor].
    + eexists _, []. rewrite <- app_assoc. cbn. split; [reflexivity|].
      split; [discriminate|constructor].
Qed.

Lemma stream_closed_on_every_exit_witness :
  exists s rest,
    trace (snd (_on_download_finished raising_env
                  {| ident := 0; successful := true;
                     fileobj := AttrIO sample_stream |}
                  (snd (initiate raising_env (init [https_url])))))
    = trace (snd (initiate raising_env (init [https_url])))
      ++ {| ev := EvCbSingle sample_stream (Some (OtherError "parse error"));
            at_state := s |}
      :: {| ev := EvClose sample_stream; at_state := s |}
      :: rest
    /\ fst (_on_download_finished raising_env
              {| ident := 0; successful := true;
                 fileobj := AttrIO sample_stream |}
              (snd (initiate raising_env (init [https_url]))))
       = Raised (OtherError "parse error")
    /\ rest = [].
Proof.
  destruct (@stream_closed_on_every_exit raising_env
              {| ident := 0; successful := true;
                 fileobj := AttrIO sample_stream |}
              sample_stream
              (snd (initiate raising_env (init [https_url])))
              eq_refl eq_refl (or_introl eq_refl))
    as (s & rest & H1 & H2 & _).
  exists s, rest. split; [exact H1|]. exact (H2 _ eq_refl).
Defined.

(** C7.  A download in flight is resolved with [successful = False]: it is
    removed from [_in_progress], the counter keeps its value and the callback
    for single downloads is not called.  The check for the all-done callback
    still runs on the list that is left: when that list is empty and
    registration is over, the all-done callback is called with the counter
    and the coordinator is marked finished; otherwise nothing else happens. *)
Theorem failed_download_still_resolves env d w :
  successful d = false ->
  In (ident d) (_in_progress (self w)) ->
  exists l,
    list_remove (ident d) (_in_progress (self w)) = Some l
    /\ _in_progress (self (snd (_on_download_finished env d w))) = l
    /\ _done_count (self (snd (_on_download_finished env d w)))
       = _done_count (self w)
    /\ count is_cb_single (trace (snd (_on_download_finished env d w)))
       = count is_cb_single (trace w)
    /\ match l, _finished_registering_downloads (self w) with
       | [], true =>
           events (snd (_on_download_finished env d w))
           = events w
             ++ [EvCbAll (_done_count (self w))
                   (user_cb_all env (events w) (_done_count (self w)))]
           /\ _finished (self (snd (_on_download_finished env d w))) = true
       | _, _ =>
           _on_download_finished env d w
           = (Ok tt,
              {| self := set_in_progress l (self w);
                 next_ident := next_ident w; trace := trace w |})
       end.
Proof.
  intros Hs Hin. unfold_finished.
  destruct (list_remove_In _ _ Hin) as [l ->]. exists l. rewrite Hs. cbn.
  split; [reflexivity|].
  destruct l; cbn.
  - destruct (_finished_registering_downloads (self w)); cbn.
    + destruct (user_cb_all env (map ev (trace w)) (_done_count (self w)))
        eqn:E; cbn; rewrite map_app, count_app; cbn;
        unfold count at 2; cbn; repeat split; lia.
    + repeat split.
  - repeat split.
Qed.

Lemma failed_download_still_resolves_witness :
  events (snd (_on_download_finished quiet_env
                 {| ident := 0; successful := false; fileobj := AttrNone |}
                 (snd (initiate quiet_env (init [https_url])))))
  = events (snd (initiate quiet_env (init [https_url])))
    ++ [EvCbAll 0 None]
  /\ _done_count
       (self (snd (_on_download_finished quiet_env
                     {| ident := 0; successful := false;
                        fileobj := AttrNone |}
                     (snd (initiate quiet_env (init [https_url])))))) = 0.
Proof.
  destruct (@failed_download_still_resolves quiet_env
              {| ident := 0; successful := false; fileobj := AttrNone |}
              (snd (initiate quiet_env (init [https_url])))
              eq_refl (or_introl eq_refl))
    as (l & Hl & _ & Hdone & _ & Hfire).
  cbn in Hl. inversion Hl; subst l. cbn in Hfire.
  split; [exact (proj1 Hfire)|exact Hdone].
Defined.

(** ** Reachable states *)

Lemma bounded_init urls : bounded (init urls).
Proof. unfold bounded, count_bounded, dispatched, count. cbn. auto. Qed.

Lemma snapshots_bounded_at n before e after :
  snapshots_bounded n (before ++ e :: after) ->
  _done_count (at_state e) + List.length (_in_progress (at_state e))
  <= n + count is_append before.
Proof.
  revert n. induction before as [|x rest IH]; intros n H; cbn in H.
  - unfold count. cbn. lia.
  - destruct H as [_ H]. apply IH in H. unfold count in *. cbn.
    destruct (is_append (ev x)); cbn; lia.
Qed.

(** C8.  After any sequence of calls of [initiate] and of resolutions on a
    new coordinator, the counter of successful downloads is at most the
    number of downloads appended to [_in_progress] so far; and the same held
    at the moment of every call the coordinator made to a collaborator,
    with the appends made before that call. *)
Theorem done_count_bounded_by_dispatched env urls acts :
  _done_count (self (run env acts (init urls)))
  <= dispatched (run env acts (init urls))
  /\ forall before e after,
       trace (run env acts (init urls)) = before ++ e :: after ->
       _done_count (at_state e) <= count is_append before.
Proof.
  destruct (@bounded_run env acts (init urls) (bounded_init urls))
    as [H1 H2].
  split.
  - unfold count_bounded in H1. lia.
  - intros before e after E. rewrite E in H2.
    apply snapshots_bounded_at in H2. lia.
Qed.

Lemma done_count_bounded_by_dispatched_witness :
  _done_count (self (run quiet_env [Initiate] (init [file_url "/lists/a"])))
  <= dispatched (run quiet_env [Initiate] (init [file_url "/lists/a"]))
  /\ _done_count
       (at_state
          (nth 2 (trace (run quiet_env [Initiate]
                           (init [file_url "/lists/a"])))
             {| ev := EvClose sample_stream; at_state := self (init []) |}))
     <= count is_append
          (firstn 2 (trace (run quiet_env [Initiate]
                              (init [file_url "/lists/a"])))).
Proof.
  destruct (@done_count_bounded_by_dispatched quiet_env
              [file_url "/lists/a"] [Initiate]) as [H1 H2].
  split; [exact H1|].
  apply (H2 _ _ (skipn 3 (trace (run quiet_env [Initiate]
                                   (init [file_url "/lists/a"]))))).
  reflexivity.
Defined.

(** ** A coordinator with nothing in flight after [initiate] is inert *)

Lemma inert_perform env a w : inert w -> snd (perform env a w) = w.
Proof.
  intros [Hs Hip]. destruct a; cbn.
  - unfold initiate, bind, gets. cbn. now rewrite Hs.
  - unfold_finished. now rewrite Hip.
Qed.

Lemma inert_run env acts w : inert w -> run env acts w = w.
Proof.
  intros H. induction acts as [|a rest IH]; cbn; [reflexivity|].
  now rewrite inert_perform.
Qed.

Lemma once_inv_reachable env urls w : reachable env urls w -> once_inv w.
Proof. intros [acts ->]. apply once_inv_run, once_inv_init. Qed.

(** C10.  Registration is over and one download is left in flight.  It is
    resolved as successful and the callback for single downloads raises:
    the exception is the outcome of the resolution, and whatever happens to
    the coordinator afterwards, the all-done callback has not been called
    and [_finished] is false. *)
Theorem callback_failure_blocks_all_done env urls w d f e acts :
  reachable env urls w ->
  _in_progress (self w) = [ident d] ->
  _finished_registering_downloads (self w) = true ->
  successful d = true ->
  fileobj d = AttrIO f ->
  user_cb_single env (events w) f = Some e ->
  fst (_on_download_finished env d w) = Raised e
  /\ all_done_calls (run env acts (snd (_on_download_finished env d w))) = 0
  /\ _finished (self (run env acts (snd (_on_download_finished env d w))))
     = false.
Proof.
  intros Hreach Hip Hreg Hs Hf Hcb.
  apply once_inv_reachable in Hreach.
  destruct Hreach as (H1 & _ & H3 & H4 & _).
  assert (Hcount : all_done_calls w = 0).
  { destruct H1 as [H1|(_ & H1 & _)]; [assumption|congruence]. }
  assert (Hfin : _finished (self w) = false).
  { destruct (_finished (self w)); [|reflexivity].
    specialize (H4 eq_refl). lia. }
  assert (E : _on_download_finished env d w
    = (Raised e,
       {| self := set_done_count (_done_count (self w) + 1)
                    (set_in_progress [] (self w));
          next_ident := next_ident w;
          trace := (trace w
            ++ [{| ev := EvCbSingle f (Some e);
                   at_state := set_done_count (_done_count (self w) + 1)
                                 (set_in_progress [] (self w)) |}])
            ++ [{| ev := EvClose f;
                   at_state := set_done_count (_done_count (self w) + 1)
                                 (set_in_progress [] (self w)) |}] |})).
  { unfold events in Hcb. unfold_finished.
    rewrite Hip. cbn. rewrite Nat.eqb_refl. cbn. rewrite Hs, Hf. cbn.
    now rewrite Hcb. }
  rewrite E. cbn [fst snd]. rewrite inert_run.
  - split; [reflexivity|]. split; [|exact Hfin].
    unfold all_done_calls in *. cbn. rewrite !count_app, Hcount.
    reflexivity.
  - split; cbn; auto.
Qed.

Lemma callback_failure_blocks_all_done_witness :
  fst (_on_download_finished raising_env
         {| ident := 0; successful := true; fileobj := AttrIO sample_stream |}
         (run raising_env [Initiate] (init [https_url])))
  = Raised (OtherError "parse error")
  /\ all_done_calls
       (run raising_env
          [DownloadFinished
             {| ident := 0; successful := true;
                fileobj := AttrIO sample_stream |};
           Initiate]
          (snd (_on_download_finished raising_env
                  {| ident := 0; successful := true;
                     fileobj := AttrIO sample_stream |}
                  (run raising_env [Initiate] (init [https_url]))))) = 0
  /\ _finished
       (self
          (run raising_env
             [DownloadFinished
                {| ident := 0; successful := true;
                   fileobj := AttrIO sample_stream |};
              Initiate]
             (snd (_on_download_finished raising_env
                     {| ident := 0; successful := true;
                        fileobj := AttrIO sample_stream |}
                     (run raising_env [Initiate] (init [https_url]))))))
     = false.
Proof.
  apply (@callback_failure_blocks_all_done raising_env [https_url]
           (run raising_env [Initiate] (init [https_url]))
           {| ident := 0; successful := true;
              fileobj := AttrIO sample_stream |}
           sample_stream (OtherError "parse error")).
  - exists [Initiate]. reflexivity.
  - reflexivity.
  - reflexivity.
  - reflexivity.
  - reflexivity.
  - reflexivity.
Defined.

(** ** [_started] stays set *)

Lemma started_finished env d :
  preserves is_started (_on_download_finished env d).
Proof.
  intros w H. unfold is_started in *. unfold_finished.
  repeat (break_inner; cbn in * ); assumption.
Qed.

Lemma started_initiate env w : is_started (snd (initiate env w)).
Proof.
  unfold initiate. unfold bind at 1, gets at 1.
  destruct (_started (self w)) eqn:Hs; [exact Hs|].
  unfold bind at 1, modify at 1.
  match goal with
  | |- is_started (snd (?m ?w1)) =>
      cut (preserves is_started m); [intros Hp; now apply Hp|]
  end.
  assert (Hmod : forall f,
             (forall s, _started (f s) = _started s) ->
             preserves is_started (modify f)).
  { intros f Hf w' H. unfold is_started, modify in *. cbn. now rewrite Hf. }
  assert (Hcb : forall n, preserves is_started (call_user_cb_all env n)).
  { intros n w' H. unfold is_started in *. unfold_finished.
    now destruct (user_cb_all env (map ev (trace w')) n). }
  apply preserves_bind; [apply preserves_gets|intros urls].
  destruct (Nat.eqb (List.length urls) 0).
  - apply preserves_bind; [apply preserves_gets|intros n].
    apply preserves_bind; [apply Hcb|intros _]. now apply Hmod.
  - apply preserves_bind; [|intros _].
    { apply preserves_registration.
      - now intros w' H.
      - now intros e He w' H.
      - now intros d w' H.
      - apply started_finished. }
    apply preserves_bind; [now apply Hmod|intros _].
    apply preserves_bind; [apply preserves_gets|intros l].
    destruct l; [|apply preserves_ret].
    apply preserves_bind; [now apply Hmod|intros _].
    apply preserves_bind; [apply preserves_gets|intros n]. apply Hcb.
Qed.

Lemma started_run env acts w : is_started w -> is_started (run env acts w).
Proof.
  revert w. induction acts as [|a rest IH]; intros w H; cbn; [assumption|].
  apply IH. destruct a; cbn.
  - apply started_initiate.
  - now apply started_finished.
Qed.

(** C2.  On any coordinator, after a first call of [initiate], whatever it
    did and however it ended, and after whatever happened to the coordinator
    since, a further call of [initiate] raises [ValueError] (the usage error
    of the specification) and changes nothing. *)
Theorem second_initiate_raises env w acts :
  initiate env (run env acts (snd (initiate env w)))
  = (Raised (ValueError "This download has already been initiated"),
     run env acts (snd (initiate env w))).
Proof.
  pose proof (@started_run env acts _ (started_initiate env w)) as H.
  unfold is_started in H. unfold initiate at 1, bind, gets. now rewrite H.
Qed.

(** C3.  A coordinator built with no source: [initiate] calls the all-done
    callback with 0 and nothing else, so no download is requested, nothing
    is opened and nothing is put in flight; when the callback returns,
    [initiate] returns with [_finished] set. *)
Theorem empty_sources_fire_at_once env :
  events (snd (initiate env (init []))) = [EvCbAll 0 (user_cb_all env [] 0)]
  /\ _in_progress (self (snd (initiate env (init [])))) = []
  /\ (user_cb_all env [] 0 = None ->
      fst (initiate env (init [])) = Ok tt
      /\ _finished (self (snd (initiate env (init [])))) = true).
Proof.
  unfold initiate, init, events. unfold_finished.
  destruct (user_cb_all env [] 0); cbn; repeat split; congruence.
Qed.

Lemma empty_sources_fire_at_once_witness :
  events (snd (initiate quiet_env (init []))) = [EvCbAll 0 None]
  /\ fst (initiate quiet_env (init [])) = Ok tt
  /\ _finished (self (snd (initiate quiet_env (init [])))) = true.
Proof.
  destruct (empty_sources_fire_at_once quiet_env) as (H1 & _ & H2).
  split; [exact H1|]. apply H2. reflexivity.
Defined.

(** ** The all-done callback *)




(** ** Why the conditions on the callbacks and on the run are there *)

(** A callback for single downloads that raises during [initiate] ends the
    registration loop: the remaining file entries are not imported and the
    all-done callback is not called. *)
Remark callback_failure_ends_registration :
  fst (initiate raising_env (init [file_url "/lists"]))
  = Raised (OtherError "parse error")
  /\ opened_files (snd (initiate raising_env (init [file_url "/lists"])))
     = ["/lists/a"]
  /\ all_done_calls (batch raising_env [file_url "/lists"] []) = 0.
Proof. vm_compute. repeat split. Qed.

(** As long as a remote download is in flight the all-done callback waits. *)
Remark all_done_waits_for_downloads :
  _in_progress (self (batch quiet_env [https_url] [])) = [0]
  /\ all_done_calls (batch quiet_env [https_url] []) = 0.
Proof. vm_compute. repeat split. Qed.

(** A download reported as successful without a stream fails the assertion
    after the counter has been incremented, and the check for the all-done
    callback is skipped. *)
Remark successful_download_without_stream :
  fst (_on_download_finished quiet_env
         {| ident := 0; successful := true; fileobj := AttrNone |}
         (batch quiet_env [https_url] []))
  = Raised AssertionError
  /\ all_done_calls
       (batch quiet_env [https_url]
          [{| ident := 0; successful := true; fileobj := AttrNone |}]) = 0.
Proof. vm_compute. repeat split. Qed.

(** ** The unit test of the repository *)

(** [test_blocklist_dl]: ten local blocklists; the callback for single
    downloads runs ten times, then the all-done callback gets 10, and
    nothing is left in flight. *)
Example test_blocklist_dl :
  fst (initiate test_env (init pretend_blocklists)) = Ok tt
  /\ count is_cb_single
       (trace (snd (initiate test_env (init pretend_blocklists)))) = 10
  /\ last (events (snd (initiate test_env (init pretend_blocklists))))
          (EvCbAll 0 None)
     = EvCbAll 10 None
  /\ all_done_calls (snd (initiate test_env (init pretend_blocklists))) = 1
  /\ _in_progress (self (snd (initiate test_env (init pretend_blocklists))))
     = [].
Proof. vm_compute. repeat split. Qed.

(** ** The whitelist check *)

Lemma whitelisted_exists (UrlPattern : Type)
    (matches : UrlPattern -> QUrl -> bool) whitelist url :
  is_whitelisted_url matches whitelist url = true
  <-> exists pattern, In pattern whitelist /\ matches pattern url = true.
Proof.
  induction whitelist as [|p rest IH]; cbn.
  - split; [discriminate|]. now intros (p & [] & _).
  - destruct (matches p url) eqn:E.
    + split; [|reflexivity]. intros _. exists p. auto.
    + rewrite IH. split.
      * intros (q & Hq & Hm). exists q. auto.
      * intros (q & [<-|Hq] & Hm); [congruence|]. exists q. auto.
Qed.

(** X1.  [is_whitelisted_url] answers true exactly when some pattern of the
    whitelist matches the URL. *)
Theorem is_whitelisted_url_iff (UrlPattern : Type)
    (matches : UrlPattern -> QUrl -> bool) whitelist url :
  is_whitelisted_url matches whitelist url = true
  <-> exists pattern, In pattern whitelist /\ matches pattern url = true.
Proof. apply whitelisted_exists. Qed.

(** X2.  The answer of [is_whitelisted_url] depends only on which patterns
    are in the whitelist, not on their order or on repetitions. *)
Theorem is_whitelisted_url_same_patterns (UrlPattern : Type)
    (matches : UrlPattern -> QUrl -> bool) l1 l2 url :
  (forall pattern, In pattern l1 <-> In pattern l2) ->
  is_whitelisted_url matches l1 url = is_whitelisted_url matches l2 url.
Proof.
  intros Hsame.
  destruct (is_whitelisted_url matches l1 url) eqn:E1;
    destruct (is_whitelisted_url matches l2 url) eqn:E2; try reflexivity.
  - apply whitelisted_exists in E1 as (p & Hp & Hm).
    assert (E : is_whitelisted_url matches l2 url = true).
    { apply whitelisted_exists. exists p. split; [now apply Hsame|auto]. }
    congruence.
  - apply whitelisted_exists in E2 as (p & Hp & Hm).
    assert (E : is_whitelisted_url matches l1 url = true).
    { apply whitelisted_exists. exists p. split; [now apply Hsame|auto]. }
    congruence.
Qed.

Lemma is_whitelisted_url_same_patterns_witness :
  is_whitelisted_url (fun p u => String.eqb p (scheme u))
    ["file"; "https"] https_url
  = is_whitelisted_url (fun p u => String.eqb p (scheme u))
      ["https"; "file"; "https"] https_url.
Proof.
  apply (@is_whitelisted_url_same_patterns string
           (fun p u => String.eqb p (scheme u))
           ["file"; "https"] ["https"; "file"; "https"] https_url).
  intros pattern. cbn. tauto.
Defined.

(** ** Resolutions that find nothing to remove *)

Lemma list_remove_absent x l : ~ In x l -> list_remove x l = None.
Proof.
  induction l as [|y rest IH]; cbn; [reflexivity|].
  intros H. destruct (Nat.eqb y x) eqn:E.
  - apply Nat.eqb_eq in E. tauto.
  - rewrite IH; tauto.
Qed.

Lemma finished_absent env d w :
  ~ In (ident d) (_in_progress (self w)) ->
  _on_download_finished env d w
  = (Raised (ValueError "list.remove(x): x not in list"), w).
Proof.
  intros H. unfold_finished. now rewrite (list_remove_absent _ _ H).
Qed.

(** X3.  Resolving a download that is not in [_in_progress] raises the
    [ValueError] of [list.remove] before anything else is done: no attribute
    changes, no callback is called, and this holds whatever the download
    reports about itself. *)
Theorem resolution_of_unknown_download_raises env d w :
  ~ In (ident d) (_in_progress (self w)) ->
  _on_download_finished env d w
  = (Raised (ValueError "list.remove(x): x not in list"), w).
Proof. apply finished_absent. Qed.

Lemma resolution_of_unknown_download_raises_witness :
  _on_download_finished raising_env
    {| ident := 5; successful := true; fileobj := AttrIO sample_stream |}
    (batch raising_env [https_url] [])
  = (Raised (ValueError "list.remove(x): x not in list"),
     batch raising_env [https_url] []).
Proof.
  apply (@resolution_of_unknown_download_raises raising_env
           {| ident := 5; successful := true;
              fileobj := AttrIO sample_stream |}
           (batch raising_env [https_url] [])).
  cbn. intros [H|[]]. discriminate.
Defined.

Lemma untouched_before_initiate env urls acts w :
  (_started (self w) = false -> w = init urls) ->
  _started (self (run env acts w)) = false -> run env acts w = init urls.
Proof.
  revert w. induction acts as [|a rest IH]; intros w H Hs;
    cbn [run] in *; auto.
  apply IH; [|assumption]. intros Hs'.
  destruct (_started (self w)) eqn:E.
  - assert (Hp : is_started (snd (perform env a w))).
    { destruct a; cbn; [apply started_initiate|now apply started_finished]. }
    unfold is_started in Hp. congruence.
  - rewrite (H eq_refl) in *. destruct a; cbn [perform] in *.
    + pose proof (started_initiate env (init urls)) as Hp.
      unfold is_started in Hp. congruence.
    + rewrite finished_absent; [reflexivity|]. cbn. tauto.
Qed.

(** X4.  Until [initiate] has been called a coordinator is exactly as
    [__init__] left it: whatever resolutions were attempted, none changed an
    attribute or called a callback. *)
Theorem nothing_happens_before_initiate env urls w :
  reachable env urls w -> _started (self w) = false -> w = init urls.
Proof.
  intros [acts ->]. now apply untouched_before_initiate.
Qed.

Lemma nothing_happens_before_initiate_witness :
  run quiet_env
    [DownloadFinished
       {| ident := 0; successful := true; fileobj := AttrIO sample_stream |};
     DownloadFinished
       {| ident := 1; successful := false; fileobj := AttrNone |}]
    (init [https_url])
  = init [https_url].
Proof.
  apply (@nothing_happens_before_initiate quiet_env [https_url]).
  - eexists. reflexivity.
  - reflexivity.
Defined.

(** X5.  Once the all-done callback has been called the coordinator is
    inert: every further call of [initiate] and every further resolution
    raises [ValueError] and changes nothing, so no callback is called
    again. *)
Theorem inert_after_all_done env urls w a :
  reachable env urls w ->
  all_done_calls w = 1 ->
  exists msg, perform env a w = (Raised (ValueError msg), w).
Proof.
  intros Hreach Hcalled. apply once_inv_reachable in Hreach.
  destruct Hreach as ([H|(_ & Hip & Hs)] & _); [congruence|].
  destruct a; cbn.
  - eexists. unfold initiate, bind, gets. now rewrite Hs.
  - eexists. apply finished_absent. rewrite Hip. tauto.
Qed.

Lemma inert_after_all_done_witness :
  exists msg,
    perform quiet_env Initiate (batch quiet_env [file_url "/lists"] [])
    = (Raised (ValueError msg), batch quiet_env [file_url "/lists"] []).
Proof.
  apply (@inert_after_all_done quiet_env [file_url "/lists"]).
  - exists [Initiate]. reflexivity.
  - reflexivity.
Defined.

(** X6.  When [initiate] on a new coordinator returns without an exception,
    the batch cannot be stuck: either the all-done callback has been called,
    once, or registration is marked complete and a download is in flight,
    whose resolution will run the check. *)
Theorem initiate_returns_done_or_in_flight env urls :
  fst (initiate env (init urls)) = Ok tt ->
  all_done_calls (snd (initiate env (init urls))) = 1
  \/ (_in_progress (self (snd (initiate env (init urls)))) <> []
      /\ _finished_registering_downloads
           (self (snd (initiate env (init urls)))) = true
      /\ all_done_calls (snd (initiate env (init urls))) = 0).
Proof.
  unfold initiate, bind, gets, modify, ret, raise. cbn.
  destruct urls as [|u urls]; cbn -[for_each].
  - intros _. left. unfold_finished. break_inner; reflexivity.
  - match goal with
    | |- context [for_each ?xs ?f ?w1] =>
        assert (Hreg : registering w1)
          by (unfold registering, all_done_calls, count; cbn; auto);
        apply (registering_registration env xs) in Hreg;
        destruct (for_each xs f w1) as [[[]|e] w2]
    end; cbn in *; [|discriminate].
    destruct Hreg as (_ & _ & _ & Hcount & _).
    destruct (_in_progress (self w2)) eqn:Hip; cbn.
    + intros _. left. unfold_finished. break_inner; cbn; counts; lia.
    + intros _. right. cbn. rewrite Hip. repeat split; auto. discriminate.
Qed.

Lemma initiate_returns_done_or_in_flight_witness :
  all_done_calls (snd (initiate quiet_env (init [https_url]))) = 1
  \/ (_in_progress (self (snd (initiate quiet_env (init [https_url])))) <> []
      /\ _finished_registering_downloads
           (self (snd (initiate quiet_env (init [https_url])))) = true
      /\ all_done_calls (snd (initiate quiet_env (init [https_url]))) = 0).
Proof.
  apply (@initiate_returns_done_or_in_flight quiet_env [https_url]).
  reflexivity.
Defined.

(** ** Invariants kept by [initiate] *)

Section InitiateInvariant.

Context {I : World -> Prop}.
Variable env : Env.
Hypothesis I_fresh : preserves I fresh.
Hypothesis I_log : forall e, passive e = true -> preserves I (log e).
Hypothesis I_append : forall d, preserves I (in_progress_append d).
Hypothesis I_local :
  forall d f, successful d = true -> fileobj d = AttrIO f ->
              preserves I (_on_download_finished env d).
Hypothesis I_modify :
  forall f,
    (forall s, _in_progress (f s) = _in_progress s) ->
    (forall s, _done_count (f s) = _done_count s) ->
    preserves I (modify f).
Hypothesis I_fire :
  forall w, I w -> I (snd (call_user_cb_all env (_done_count (self w)) w)).

Lemma kept_import_local filename : preserves I (_import_local env filename).
Proof.
  unfold _import_local.
  apply preserves_bind; [now apply I_log|intros _].
  destruct (open_rb env filename);
    [|now apply I_log|apply preserves_raise].
  apply preserves_bind; [|intros f].
  { apply preserves_bind; [assumption|intros; apply preserves_ret]. }
  intros w H. unfold FakeDownload, bind at 1, bind at 1, fresh, ret.
  match goal with
  | |- I (snd (bind ?m ?k ?w1)) =>
      cut (preserves I (bind m k));
        [intros Hp; apply Hp; exact (I_fresh H)|]
  end.
  apply preserves_bind; [apply I_append|intros _].
  now apply (I_local _ (f := f)).
Qed.

Lemma kept_download_blocklist_url url :
  preserves I (_download_blocklist_url env url).
Proof.
  unfold _download_blocklist_url.
  destruct (String.eqb (scheme url) "file").
  - destruct (isdir env (toLocalFile url)).
    + apply preserves_bind; [|intros entries].
      { unfold os_scandir.
        apply preserves_bind; [now apply I_log|intros _].
        destruct (scandir_error env (toLocalFile url));
          [apply preserves_raise|apply preserves_ret]. }
      apply preserves_for_each. intros entry.
      apply preserves_bind; [|intros file].
      { unfold entry_is_file.
        destruct (is_file_error entry);
          [apply preserves_raise|apply preserves_ret]. }
      destruct file; [apply kept_import_local|apply preserves_ret].
    + apply kept_import_local.
  - apply preserves_bind; [|intros d].
    { apply preserves_bind; [now apply I_log|intros; assumption]. }
    apply preserves_bind; [apply I_append|intros _].
    now apply I_log.
Qed.

Lemma kept_initiate : preserves I (initiate env).
Proof.
  unfold initiate.
  apply preserves_bind; [apply preserves_gets|intros started].
  destruct started; [apply preserves_raise|].
  apply preserves_bind; [now apply I_modify|intros _].
  apply preserves_bind; [apply preserves_gets|intros urls].
  destruct (Nat.eqb (List.length urls) 0).
  - intros w H. unfold bind, gets.
    pose proof (I_fire H) as Hfire.
    destruct (call_user_cb_all env (_done_count (self w)) w)
      as [[[]|e] w']; cbn in *; [|assumption].
    now apply I_modify.
  - apply preserves_bind; [|intros _].
    { apply preserves_for_each. exact kept_download_blocklist_url. }
    apply preserves_bind; [now apply I_modify|intros _].
    apply preserves_bind; [apply preserves_gets|intros l].
    destruct l; [|apply preserves_ret].
    apply preserves_bind; [now apply I_modify|intros _].
    intros w H. unfold bind, gets. now apply I_fire.
Qed.

End InitiateInvariant.

(** ** Every stream given to the callback is closed *)

Ltac log_leaf :=
  unfold streams_closed, closed, handed, all_done_args in *; cbn in *;
  rewrite ?flat_map_app; cbn; rewrite ?app_nil_r, <- ?app_assoc; cbn;
  try congruence.

Lemma streams_closed_finished env d :
  preserves streams_closed (_on_download_finished env d).
Proof.
  intros w H. unfold_finished.
  repeat (break_inner; cbn in * ); subst; log_leaf.
Qed.

Lemma streams_closed_initiate env : preserves streams_closed (initiate env).
Proof.
  apply kept_initiate.
  - now intros w H.
  - intros e He w H. unfold log. destruct e; try discriminate; log_leaf.
  - intros d w H. unfold_finished. log_leaf.
  - intros d f _ _. apply streams_closed_finished.
  - now intros f _ _ w H.
  - intros w H. unfold_finished. break_inner; log_leaf.
Qed.

(** X7.  After any sequence of calls of [initiate] and of resolutions, the
    streams that have been closed are exactly the streams that were given
    to the callback for single downloads, in the same order: none is left
    open, whether the callback returned or raised, and none is closed
    without having been delivered. *)
Theorem delivered_streams_are_closed env urls acts :
  closed (run env acts (init urls)) = handed (run env acts (init urls)).
Proof.
  change (streams_closed (run env acts (init urls))).
  assert (H : streams_closed (init urls)) by reflexivity.
  revert H. generalize (init urls).
  induction acts as [|a rest IH]; intros w H; cbn; [assumption|].
  apply IH. destruct a; cbn.
  - now apply streams_closed_initiate.
  - now apply streams_closed_finished.
Qed.

(** ** The all-done callback gets the number of delivered downloads *)

Lemma totals_agree_snoc k t e :
  totals_agree k (t ++ [e]) <->
  totals_agree k t
  /\ match ev e with
     | EvCbAll n _ => n = k + count is_cb_single t
     | _ => True
     end.
Proof.
  revert k. induction t as [|x rest IH]; intros k; cbn.
  - unfold count; cbn. rewrite Nat.add_0_r. tauto.
  - rewrite IH. unfold count; cbn.
    destruct (is_cb_single (ev x)); cbn; rewrite <- ?plus_n_Sm; tauto.
Qed.

Lemma totals_agree_at k before e after n r :
  totals_agree k (before ++ e :: after) ->
  ev e = EvCbAll n r -> n = k + count is_cb_single before.
Proof.
  revert k. induction before as [|x rest IH]; intros k H He; cbn in H.
  - rewrite He in H. unfold count. cbn. lia.
  - destruct H as [_ H]. apply IH in H; [|assumption]. unfold count in *.
    cbn. destruct (is_cb_single (ev x)); cbn; lia.
Qed.

Ltac counted_leaf :=
  unfold counted in *; cbn in *;
  rewrite ?totals_agree_snoc, ?count_app, ?count_one; cbn;
  rewrite ?count_app, ?count_one; cbn;
  intuition (try lia).

Lemma counted_finished env d :
  well_formed d = true -> preserves counted (_on_download_finished env d).
Proof.
  intros Hwf w H. unfold well_formed in Hwf. unfold_finished.
  repeat (break_inner; cbn in * ); subst; try discriminate; counted_leaf.
Qed.

Lemma counted_initiate env : preserves counted (initiate env).
Proof.
  apply kept_initiate.
  - now intros w H.
  - intros e He w H. unfold log. destruct e; try discriminate; counted_leaf.
  - intros d w H. unfold_finished. counted_leaf.
  - intros d f Hs Hf. apply counted_finished. unfold well_formed.
    now rewrite Hs, Hf.
  - intros f _ Hf w H. unfold counted, modify in *. cbn. now rewrite Hf.
  - intros w H. unfold_finished. break_inner; counted_leaf.
Qed.

Lemma counted_run env acts w :
  forallb well_formed_action acts = true -> counted w ->
  counted (run env acts w).
Proof.
  revert w. induction acts as [|a rest IH]; intros w Hwf H; cbn;
    [assumption|].
  cbn in Hwf. apply andb_prop in Hwf as [Ha Hrest].
  apply IH; [assumption|]. destruct a; cbn.
  - now apply counted_initiate.
  - now apply counted_finished.
Qed.

(** X8.  When every successful download that is resolved has a stream, the
    counter of successful downloads equals the number of calls of the
    callback for single downloads, and each call of the all-done callback
    gets the number of such calls made before it. *)
Theorem all_done_gets_the_number_of_deliveries env urls acts :
  forallb well_formed_action acts = true ->
  _done_count (self (run env acts (init urls)))
  = count is_cb_single (trace (run env acts (init urls)))
  /\ forall before e after n r,
       trace (run env acts (init urls)) = before ++ e :: after ->
       ev e = EvCbAll n r ->
       n = count is_cb_single before.
Proof.
  intros Hwf.
  assert (H : counted (init urls)).
  { unfold counted, init, count. cbn. auto. }
  apply (counted_run env _ Hwf) in H. destruct H as [H1 H2].
  split; [exact H1|].
  intros before e after n r E He. rewrite E in H2.
  exact (@totals_agree_at 0 before e after n r H2 He).
Qed.

Lemma all_done_gets_the_number_of_deliveries_witness :
  _done_count
    (self (batch quiet_env [file_url "/lists"; https_url]
             [{| ident := 2; successful := true;
                 fileobj := AttrIO sample_stream |}]))
  = count is_cb_single
      (trace (batch quiet_env [file_url "/lists"; https_url]
                [{| ident := 2; successful := true;
                    fileobj := AttrIO sample_stream |}])).
Proof.
  apply (@all_done_gets_the_number_of_deliveries quiet_env
           [file_url "/lists"; https_url]
           [Initiate;
            DownloadFinished
              {| ident := 2; successful := true;
                 fileobj := AttrIO sample_stream |}]).
  reflexivity.
Defined.

(** ** [_finished] against the calls of the all-done callback *)

Lemma called_finished_resolution env d w :
  once_inv w ->
  (1 <= all_done_calls w -> _finished (self w) = true) ->
  1 <= all_done_calls (snd (_on_download_finished env d w)) ->
  _finished (self (snd (_on_download_finished env d w))) = true.
Proof.
  intros Honce H. unfold_finished.
  destruct (list_remove (ident d) (_in_progress (self w))) as [l|] eqn:E;
    cbn; [|assumption].
  assert (Hcount : all_done_calls w = 0).
  { destruct Honce as ([Hc|(_ & Hip & _)] & _); [assumption|].
    rewrite Hip in E. discriminate. }
  clear Honce H.
  repeat (break_inner; cbn in * ); subst; counts; auto; lia.
Qed.

Lemma called_finished_initiate env urls :
  (urls = [] -> user_cb_all env [] 0 = None) ->
  1 <= all_done_calls (snd (initiate env (init urls))) ->
  _finished (self (snd (initiate env (init urls)))) = true.
Proof.
  intros Hc. unfold initiate, bind, gets, modify, ret, raise. cbn.
  destruct urls as [|u urls]; cbn -[for_each].
  - unfold_finished. rewrite (Hc eq_refl). reflexivity.
  - match goal with
    | |- context [for_each ?xs ?f ?w1] =>
        assert (Hreg : registering w1)
          by (unfold registering, all_done_calls, count; cbn; auto);
        apply (registering_registration env xs) in Hreg;
        destruct (for_each xs f w1) as [[[]|e] w2]
    end; cbn in *; destruct Hreg as (_ & _ & Hf & Hcount & _).
    + unfold_finished.
      repeat (break_inner; cbn in * ); subst; counts; auto; lia.
    + counts. lia.
Qed.

Lemma called_finished_run env urls acts w :
  (urls = [] -> user_cb_all env [] 0 = None) ->
  once_inv w ->
  (_started (self w) = false -> w = init urls) ->
  (1 <= all_done_calls w -> _finished (self w) = true) ->
  1 <= all_done_calls (run env acts w) ->
  _finished (self (run env acts w)) = true.
Proof.
  intros Hc. revert w.
  induction acts as [|a rest IH]; intros w Honce Hfresh H; cbn [run]; auto.
  apply IH.
  - destruct a; cbn [perform];
      [now apply once_inv_initiate|now apply once_inv_finished].
  - intros Hs. destruct (_started (self w)) eqn:E.
    + assert (Hp : is_started (snd (perform env a w))).
      { destruct a; cbn [perform];
          [apply started_initiate|now apply started_finished]. }
      unfold is_started in Hp. congruence.
    + rewrite (Hfresh eq_refl) in *. destruct a; cbn [perform] in *.
      * pose proof (started_initiate env (init urls)) as Hp.
        unfold is_started in Hp. congruence.
      * rewrite finished_absent; [reflexivity|]. cbn. tauto.
  - destruct a; cbn [perform].
    + destruct (_started (self w)) eqn:E.
      * unfold initiate, bind, gets. rewrite E. exact H.
      * rewrite (Hfresh eq_refl). now apply called_finished_initiate.
    + now apply called_finished_resolution.
Qed.

(** X9.  [_finished] is documented as telling whether the all-done callback
    has been called.  In every reachable state a set [_finished] means the
    callback has been called, once.  The converse holds too, except in one
    case: with no source the call comes before the assignment, so it needs
    the all-done callback to return. *)
Theorem finished_flag_tells_all_done env urls w :
  reachable env urls w ->
  (_finished (self w) = true -> all_done_calls w = 1)
  /\ ((urls = [] -> user_cb_all env [] 0 = None) ->
      all_done_calls w = 1 -> _finished (self w) = true).
Proof.
  intros Hreach. split.
  - apply once_inv_reachable in Hreach. apply Hreach.
  - intros Hc Hcalled. destruct Hreach as [acts ->].
    apply (@called_finished_run env urls acts (init urls)); auto.
    + apply once_inv_init.
    + unfold all_done_calls, init, count. cbn. lia.
    + lia.
Qed.

Lemma finished_flag_tells_all_done_witness :
  _finished (self (batch quiet_env [] [])) = true.
Proof.
  destruct (@finished_flag_tells_all_done quiet_env [] (batch quiet_env [] []))
    as [_ H].
  - exists [Initiate]. reflexivity.
  - apply H; reflexivity.
Defined.

(** X10.  With no source and an all-done callback that raises, [initiate]
    raises the same exception after the callback has been called, and
    [_finished] is never set: the coordinator is inert from then on, so the
    call stays recorded once and [_finished] stays false whatever happens
    next. *)
Theorem empty_batch_callback_failure_leaves_unfinished env e acts :
  user_cb_all env [] 0 = Some e ->
  fst (initiate env (init [])) = Raised e
  /\ all_done_calls (run env acts (snd (initiate env (init [])))) = 1
  /\ _finished (self (run env acts (snd (initiate env (init []))))) = false.
Proof.
  intros Hc.
  assert (E : initiate env (init [])
    = (Raised e,
       {| self := set_started true (self (init []));
          next_ident := 0;
          trace := [{| ev := EvCbAll 0 (Some e);
                       at_state := set_started true (self (init [])) |}] |})).
  { unfold initiate, init. unfold_finished. now rewrite Hc. }
  rewrite E. cbn [fst snd]. rewrite inert_run; [|split; reflexivity].
  repeat split.
Qed.

Lemma empty_batch_callback_failure_leaves_unfinished_witness :
  fst (initiate
         {| isdir := isdir quiet_env; scandir := scandir quiet_env;
            scandir_error := scandir_error quiet_env;
            open_rb := open_rb quiet_env;
            user_cb_single := user_cb_single quiet_env;
            user_cb_all := fun _ _ => Some (OtherError "reload failed") |}
         (init []))
  = Raised (OtherError "reload failed").
Proof.
  apply (@empty_batch_callback_failure_leaves_unfinished
           {| isdir := isdir quiet_env; scandir := scandir quiet_env;
              scandir_error := scandir_error quiet_env;
              open_rb := open_rb quiet_env;
              user_cb_single := user_cb_single quiet_env;
              user_cb_all := fun _ _ => Some (OtherError "reload failed") |}
           (OtherError "reload failed") []).
  reflexivity.
Defined.

(** ** The downloads in flight are distinct *)

Lemma list_remove_split x l l' :
  list_remove x l = Some l' ->
  exists l1 l2, l = l1 ++ x :: l2 /\ l' = l1 ++ l2.
Proof.
  revert l'. induction l as [|y rest IH]; intros l' H; cbn in H.
  - discriminate.
  - destruct (Nat.eqb y x) eqn:E.
    + apply Nat.eqb_eq in E. subst y. inversion H; subst.
      now exists [], l'.
    + destruct (list_remove x rest) as [r|]; [|discriminate].
      inversion H; subst. destruct (IH r eq_refl) as (l1 & l2 & -> & ->).
      now exists (y :: l1), l2.
Qed.

Lemma list_remove_fresh x l : ~ In x l -> list_remove x (l ++ [x]) = Some l.
Proof.
  induction l as [|y rest IH]; cbn; intros H.
  - now rewrite Nat.eqb_refl.
  - destruct (Nat.eqb y x) eqn:E.
    + apply Nat.eqb_eq in E. tauto.
    + rewrite IH; tauto.
Qed.

Lemma alloc_inv_weaken o s s' n n' t t' :
  _in_progress s' = _in_progress s -> n <= n' ->
  alloc_inv o {| self := s; next_ident := n; trace := t |} ->
  alloc_inv o {| self := s'; next_ident := n'; trace := t' |}.
Proof.
  unfold alloc_inv, alloc_ok, retired. cbn. intros -> Hn ((H1 & H2) & H3).
  repeat split; auto.
  - eapply Forall_impl; [|exact H2]. cbn. intros; lia.
  - destruct o; auto. destruct H3. split; [lia|assumption].
Qed.

Lemma alloc_inv_same o w w' :
  _in_progress (self w') = _in_progress (self w) ->
  next_ident w <= next_ident w' ->
  alloc_inv o w -> alloc_inv o w'.
Proof.
  destruct w, w'. cbn. apply alloc_inv_weaken.
Qed.

Lemma alloc_inv_removed o w x l :
  list_remove x (_in_progress (self w)) = Some l ->
  alloc_inv o w ->
  NoDup l /\ Forall (fun i => i < next_ident w) l
  /\ ~ In x l
  /\ match o with
     | Some i => i < next_ident w /\ ~ In i l
     | None => True
     end.
Proof.
  intros E ((H1 & H2) & H3).
  apply list_remove_split in E as (l1 & l2 & E & ->). rewrite E in *.
  repeat split.
  - now apply NoDup_remove_1 in H1.
  - apply Forall_app in H2 as [Ha Hb]. apply Forall_app. split; auto.
    now inversion Hb.
  - now apply NoDup_remove_2 in H1.
  - destruct o; auto. destruct H3 as [Hlt Hin]. split; auto.
    intros Hin'. apply Hin. unfold retired. rewrite E.
    apply in_app_or in Hin'. apply in_or_app. cbn. tauto.
Qed.

Lemma alloc_inv_finished o env d :
  preserves (alloc_inv o) (_on_download_finished env d).
Proof.
  intros w H. unfold_finished.
  destruct (list_remove (ident d) (_in_progress (self w))) as [l|] eqn:E;
    cbn; [|assumption].
  destruct (alloc_inv_removed _ E H) as (H1 & H2 & _ & H3).
  repeat (break_inner; cbn in * ); subst;
    unfold alloc_inv, alloc_ok, retired; cbn; auto.
Qed.

(** The effect of [_import_local] on the list of downloads in flight. *)
Lemma import_local_in_flight env filename w :
  Forall (fun i => i < next_ident w) (_in_progress (self w)) ->
  _in_progress (self (snd (_import_local env filename w)))
  = _in_progress (self w)
  /\ next_ident w <= next_ident (snd (_import_local env filename w)).
Proof.
  intros Hlt.
  assert (Hfresh : ~ In (S (next_ident w)) (_in_progress (self w))).
  { intros Hin. rewrite Forall_forall in Hlt. apply Hlt in Hin. lia. }
  unfold _import_local, message_error, new_fileobj, FakeDownload, fresh.
  unfold_finished. destruct (open_rb env filename); cbn; [|auto|auto].
  rewrite (list_remove_fresh _ _ Hfresh). cbn.
  repeat (break_inner; cbn in * ); subst; split; auto.
Qed.

Lemma alloc_inv_import_local o env filename :
  preserves (alloc_inv o) (_import_local env filename).
Proof.
  intros w H. assert (H' := H). destruct H' as ((_ & Hlt) & _).
  destruct (import_local_in_flight env filename w Hlt) as [H1 H2].
  exact (@alloc_inv_same o w _ H1 H2 H).
Qed.

Lemma alloc_inv_log o e : preserves (alloc_inv o) (log e).
Proof. intros w H. now apply (@alloc_inv_same o w). Qed.

Lemma alloc_inv_modify o f :
  (forall s, _in_progress (f s) = _in_progress s) ->
  preserves (alloc_inv o) (modify f).
Proof. intros Hf w H. apply (@alloc_inv_same o w); cbn; auto. Qed.

Lemma alloc_inv_download_blocklist_url o env url :
  preserves (alloc_inv o) (_download_blocklist_url env url).
Proof.
  unfold _download_blocklist_url.
  destruct (String.eqb (scheme url) "file").
  - destruct (isdir env (toLocalFile url)).
    + apply preserves_bind; [|intros entries].
      { unfold os_scandir.
        apply preserves_bind; [apply alloc_inv_log|intros _].
        destruct (scandir_error env (toLocalFile url));
          [apply preserves_raise|apply preserves_ret]. }
      apply preserves_for_each. intros entry.
      apply preserves_bind; [|intros file].
      { unfold entry_is_file.
        destruct (is_file_error entry);
          [apply preserves_raise|apply preserves_ret]. }
      destruct file; [apply alloc_inv_import_local|apply preserves_ret].
    + apply alloc_inv_import_local.
  - intros w ((H1 & H2) & H3). unfold download_temp, finished_connect, fresh.
    unfold_finished. unfold alloc_inv, alloc_ok, retired. cbn.
    assert (Hfresh : ~ In (next_ident w) (_in_progress (self w))).
    { intros Hin. rewrite Forall_forall in H2. apply H2 in Hin. lia. }
    repeat split.
    + apply NoDup_app; repeat split; auto.
      * constructor; [tauto|constructor].
      * intros x Hx [<-|[]]. tauto.
    + apply Forall_app. split.
      * eapply Forall_impl; [|exact H2]. cbn. intros; lia.
      * constructor; [lia|constructor].
    + destruct o; auto. destruct H3 as [Hlt Hin]. split; [lia|].
      intros Hin'. apply in_app_or in Hin' as [Hin'|[<-|[]]]; [tauto|lia].
Qed.

Lemma alloc_inv_initiate o env : preserves (alloc_inv o) (initiate env).
Proof.
  assert (Hcb : forall n, preserves (alloc_inv o) (call_user_cb_all env n)).
  { intros n w H. unfold_finished.
    destruct (user_cb_all env (map ev (trace w)) n); cbn;
      now apply (@alloc_inv_same o w). }
  unfold initiate.
  apply preserves_bind; [apply preserves_gets|intros started].
  destruct started; [apply preserves_raise|].
  apply preserves_bind; [now apply alloc_inv_modify|intros _].
  apply preserves_bind; [apply preserves_gets|intros urls].
  destruct (Nat.eqb (List.length urls) 0).
  - apply preserves_bind; [apply preserves_gets|intros n].
    apply preserves_bind; [apply Hcb|intros _].
    now apply alloc_inv_modify.
  - apply preserves_bind; [|intros _].
    { apply preserves_for_each. apply alloc_inv_download_blocklist_url. }
    apply preserves_bind; [now apply alloc_inv_modify|intros _].
    apply preserves_bind; [apply preserves_gets|intros l].
    destruct l; [|apply preserves_ret].
    apply preserves_bind; [now apply alloc_inv_modify|intros _].
    apply preserves_bind; [apply preserves_gets|intros n]. apply Hcb.
Qed.

Lemma alloc_inv_run o env acts w :
  alloc_inv o w -> alloc_inv o (run env acts w).
Proof.
  revert w. induction acts as [|a rest IH]; intros w H; cbn; [assumption|].
  apply IH. destruct a; cbn.
  - now apply alloc_inv_initiate.
  - now apply alloc_inv_finished.
Qed.

Lemma alloc_inv_init urls : alloc_inv None (init urls).
Proof. unfold alloc_inv, alloc_ok, init. cbn. repeat constructor. Qed.

(** X11.  In every reachable state the downloads in [_in_progress] are
    pairwise distinct: no download is in flight twice, so the single
    [list.remove] of a resolution takes it out altogether. *)
Theorem in_flight_downloads_are_distinct env urls acts :
  NoDup (_in_progress (self (run env acts (init urls)))).
Proof.
  destruct (@alloc_inv_run None env acts _ (alloc_inv_init urls))
    as ((H & _) & _).
  exact H.
Qed.

(** X12.  A download is resolved at most once: after the resolution of a
    download in flight (whatever its outcome), and whatever happens to the
    coordinator in between, a further resolution of the same download
    raises the [ValueError] of [list.remove] and changes nothing. *)
Theorem download_resolves_at_most_once env urls acts acts' d d' :
  In (ident d) (_in_progress (self (run env acts (init urls)))) ->
  ident d' = ident d ->
  _on_download_finished env d'
    (run env acts'
       (snd (_on_download_finished env d (run env acts (init urls)))))
  = (Raised (ValueError "list.remove(x): x not in list"),
     run env acts'
       (snd (_on_download_finished env d (run env acts (init urls))))).
Proof.
  intros Hin Hid.
  pose proof (@alloc_inv_run None env acts _ (alloc_inv_init urls)) as H.
  set (w := run env acts (init urls)) in *.
  assert (Hret : alloc_inv (Some (ident d))
                   (snd (_on_download_finished env d w))).
  { destruct (list_remove_In _ _ Hin) as [l E].
    destruct (alloc_inv_removed _ E H) as (H1 & H2 & H3 & _).
    assert (Hlt : ident d < next_ident w).
    { destruct H as ((_ & Hall) & _). rewrite Forall_forall in Hall.
      now apply Hall. }
    unfold_finished. rewrite E. cbn.
    repeat (break_inner; cbn in * ); subst;
      unfold alloc_inv, alloc_ok, retired; cbn; auto. }
  apply (alloc_inv_run env acts') in Hret.
  apply finished_absent. rewrite Hid. apply Hret.
Qed.

Lemma download_resolves_at_most_once_witness :
  _on_download_finished quiet_env
    {| ident := 0; successful := true; fileobj := AttrIO sample_stream |}
    (run quiet_env []
       (snd (_on_download_finished quiet_env
               {| ident := 0; successful := false; fileobj := AttrNone |}
               (run quiet_env [Initiate] (init [https_url; https_url])))))
  = (Raised (ValueError "list.remove(x): x not in list"),
     run quiet_env []
       (snd (_on_download_finished quiet_env
               {| ident := 0; successful := false; fileobj := AttrNone |}
               (run quiet_env [Initiate] (init [https_url; https_url]))))).
Proof.
  apply (@download_resolves_at_most_once quiet_env [https_url; https_url]
           [Initiate] []
           {| ident := 0; successful := false; fileobj := AttrNone |}
           {| ident := 0; successful := true;
              fileobj := AttrIO sample_stream |}).
  - cbn. auto.
  - reflexivity.
Defined.

(** X13.  [_import_local] never leaves anything in flight: when the
    downloads in flight are objects created before the call, the list
    [_in_progress] is the same after the call as before it, whether the
    file could be opened or not and whether the callback returned or
    raised. *)
Theorem import_local_leaves_nothing_in_flight env filename w :
  Forall (fun i => i < next_ident w) (_in_progress (self w)) ->
  _in_progress (self (snd (_import_local env filename w)))
  = _in_progress (self w).
Proof. intros H. now apply import_local_in_flight. Qed.

Lemma import_local_leaves_nothing_in_flight_witness :
  _in_progress
    (self (snd (_import_local raising_env "/etc/hosts"
                  (run raising_env [Initiate] (init [https_url])))))
  = _in_progress (self (run raising_env [Initiate] (init [https_url]))).
Proof.
  apply (@import_local_leaves_nothing_in_flight raising_env "/etc/hosts"
           (run raising_env [Initiate] (init [https_url]))).
  cbn. repeat constructor.
Defined.

Lemma local_sources_idle env urls w :
  forallb (fun u => negb (is_remote u)) urls = true ->
  _in_progress (self w) = [] ->
  _in_progress (self (snd (for_each urls (_download_blocklist_url env) w)))
  = [].
Proof.
  set (idle := fun w : World => _in_progress (self w) = []).
  assert (Himp : forall f, preserves idle (_import_local env f)).
  { intros f w' H. unfold idle in *.
    destruct (import_local_in_flight env f w') as [E _];
      [rewrite H; constructor|].
    rewrite E. exact H. }
  intros Hloc. revert w.
  change (preserves idle (for_each urls (_download_blocklist_url env))).
  induction urls as [|u rest IH]; cbn [for_each].
  - apply preserves_ret.
  - cbn in Hloc. apply andb_prop in Hloc as [Hu Hrest].
    apply preserves_bind; [|intros _; now apply IH].
    unfold is_remote in Hu. rewrite negb_involutive in Hu.
    unfold _download_blocklist_url. rewrite Hu.
    destruct (isdir env (toLocalFile u)); [|apply Himp].
    apply preserves_bind; [|intros entries].
    { unfold os_scandir.
      apply preserves_bind; [now intros w' H|intros _].
      destruct (scandir_error env (toLocalFile u));
        [apply preserves_raise|apply preserves_ret]. }
    apply preserves_for_each. intros entry.
    apply preserves_bind; [|intros file].
    { unfold entry_is_file.
      destruct (is_file_error entry);
        [apply preserves_raise|apply preserves_ret]. }
    destruct file; [apply Himp|apply preserves_ret].
Qed.

(** X14.  When no source is remote, nothing is in flight after [initiate]
    on a new coordinator, whatever the file system holds and whatever the
    callbacks do, raising included. *)
Theorem local_sources_leave_nothing_in_flight env urls :
  forallb (fun u => negb (is_remote u)) urls = true ->
  _in_progress (self (snd (initiate env (init urls)))) = [].
Proof.
  intros Hloc. unfold initiate, bind, gets, modify, ret, raise. cbn.
  destruct urls as [|u urls]; cbn -[for_each].
  - unfold_finished. break_inner; reflexivity.
  - match goal with
    | |- context [for_each ?xs ?f ?w1] =>
        pose proof (@local_sources_idle env xs w1 Hloc eq_refl) as Hidle;
        destruct (for_each xs f w1) as [[[]|e] w2]
    end; cbn in *; [|assumption].
    rewrite Hidle. unfold_finished. break_inner; cbn; exact Hidle.
Qed.

Lemma local_sources_leave_nothing_in_flight_witness :
  _in_progress
    (self (snd (initiate raising_env
                  (init [file_url "/lists"; file_url "/etc/hosts"]))))
  = [].
Proof.
  apply (@local_sources_leave_nothing_in_flight raising_env
           [file_url "/lists"; file_url "/etc/hosts"]).
  reflexivity.
Defined.

(** ** What [initiate] registers *)

Lemma registers_refl env w : ready w -> registers_as env [] [] w w.
Proof.
  intros [H1 H2]. unfold registers_as. cbn.
  rewrite !app_nil_r, !Nat.add_0_r. tauto.
Qed.

Lemma registers_trans env r1 r2 f1 f2 w1 w2 w3 :
  registers_as env r1 f1 w1 w2 -> registers_as env r2 f2 w2 w3 ->
  registers_as env (r1 ++ r2) (f1 ++ f2) w1 w3.
Proof.
  unfold registers_as. intros H1 H2.
  repeat match goal with H : _ /\ _ |- _ => destruct H end.
  rewrite filter_app, !length_app, !app_assoc.
  repeat split; try congruence; try lia.
Qed.

Lemma registers_ready env r f w w' : registers_as env r f w w' -> ready w'.
Proof. unfold registers_as, ready. tauto. Qed.

Ltac registers_leaf :=
  unfold registers_as, requested, opened_files, handed, all_done_args;
  cbn; rewrite ?flat_map_app, ?map_app, ?length_app; cbn;
  rewrite ?app_nil_r, ?Nat.add_0_r.

(** What a call of [_import_local] that returns has done. *)
Lemma import_local_registers env filename w w' :
  ready w ->
  _import_local env filename w = (Ok tt, w') ->
  registers_as env [] [filename] w w'.
Proof.
  intros [Hr Hlt].
  assert (Hfresh : ~ In (S (next_ident w)) (_in_progress (self w))).
  { intros Hin. rewrite Forall_forall in Hlt. apply Hlt in Hin. lia. }
  unfold _import_local, message_error, new_fileobj, FakeDownload, fresh.
  unfold_finished. destruct (open_rb env filename) eqn:Hopen; cbn.
  - rewrite (list_remove_fresh _ _ Hfresh). cbn.
    match goal with
    | |- context [user_cb_single ?e ?h ?f] =>
        destruct (user_cb_single e h f)
    end; cbn; [discriminate|].
    rewrite Hr.
    assert (Hlt' : Forall (fun i => i < S (S (next_ident w)))
                     (_in_progress (self w))).
    { eapply Forall_impl; [|exact Hlt]. cbn. intros; lia. }
    clear Hlt Hfresh.
    destruct (_in_progress (self w)) eqn:Hip; intros E;
      injection E as <-;
      registers_leaf; unfold openable; rewrite Hopen; cbn;
      rewrite ?app_nil_r, ?Hip; repeat split; auto.
  - intros E. injection E as <-.
    registers_leaf. unfold openable. rewrite Hopen. cbn.
    rewrite ?app_nil_r, ?Nat.add_0_r. repeat split; auto.
  - discriminate.
Qed.

Lemma import_entries_registers env entries w w' :
  ready w ->
  for_each entries
    (fun entry =>
       file <- entry_is_file entry ;;
       if (file : bool) then _import_local env (path entry) else ret tt) w
  = (Ok tt, w') ->
  registers_as env [] (map path (filter is_file entries)) w w'.
Proof.
  revert w. induction entries as [|x rest IH]; intros w Hready;
    cbn [for_each].
  - intros E. injection E as <-. now apply registers_refl.
  - unfold bind at 1 2, entry_is_file at 1. cbn [filter].
    destruct (is_file_error x); [discriminate|]. unfold ret at 1.
    destruct (is_file x).
    + destruct (_import_local env (path x) w) as [[[]|e] w1] eqn:E1;
        [|discriminate].
      intros E. pose proof (@import_local_registers env _ _ _ Hready E1) as H1.
      pose proof (IH w1 (registers_ready H1) E) as H2.
      exact (registers_trans H1 H2).
    + unfold ret at 1. now apply IH.
Qed.

Lemma download_blocklist_url_registers env u w w' :
  ready w ->
  _download_blocklist_url env u w = (Ok tt, w') ->
  registers_as env (if is_remote u then [u] else [])
    (local_files_of env u) w w'.
Proof.
  intros Hready.
  unfold _download_blocklist_url, is_remote, local_files_of.
  destruct (String.eqb (scheme u) "file"); cbn [negb].
  - destruct (isdir env (toLocalFile u)).
    + unfold bind at 1, os_scandir, bind at 1, log at 1.
      destruct (scandir_error env (toLocalFile u)); [discriminate|].
      unfold ret at 1. intros E.
      match type of E with
      | for_each _ _ ?w1 = _ =>
          assert (Hready1 : ready w1) by exact Hready;
          pose proof (@import_entries_registers env _ _ _ Hready1 E) as H
      end.
      unfold registers_as, requested, opened_files, handed, all_done_args
        in *.
      cbn in H |- *. rewrite !flat_map_app in H. cbn in H.
      rewrite !app_nil_r in H.
      repeat match goal with H : _ /\ _ |- _ => destruct H end.
      repeat split; cbn; rewrite ?app_nil_r; try assumption; try lia.
    + now apply import_local_registers.
  - destruct Hready as [Hr Hlt].
    unfold download_temp, finished_connect, fresh. unfold_finished.
    intros E. injection E as <-.
    registers_leaf. repeat split; auto.
    apply Forall_app. split.
    + eapply Forall_impl; [|exact Hlt]. cbn. intros; lia.
    + constructor; [lia|constructor].
Qed.

Lemma registration_registers env urls w w' :
  ready w ->
  for_each urls (_download_blocklist_url env) w = (Ok tt, w') ->
  registers_as env (filter is_remote urls)
    (flat_map (local_files_of env) urls) w w'.
Proof.
  revert w. induction urls as [|u rest IH]; intros w Hready;
    cbn [for_each].
  - intros E. injection E as <-. now apply registers_refl.
  - unfold bind at 1.
    destruct (_download_blocklist_url env u w) as [[[]|e] w1] eqn:E1;
      [|discriminate].
    intros E.
    pose proof (@download_blocklist_url_registers env _ _ _ Hready E1) as H1.
    pose proof (IH w1 (registers_ready H1) E) as H2.
    pose proof (registers_trans H1 H2) as H. cbn [filter flat_map].
    now destruct (is_remote u).
Qed.

Lemma filter_nil_existsb A (p : A -> bool) l :
  existsb p l = Nat.ltb 0 (List.length (filter p l)).
Proof.
  induction l as [|x rest IH]; cbn; [reflexivity|].
  destruct (p x); cbn; auto.
Qed.


(** Everything [initiate] has done on a new coordinator once registration
    is marked complete. *)
Lemma initiate_summary env urls :
  _finished_registering_downloads (self (snd (initiate env (init urls))))
  = true ->
  List.length (_in_progress (self (snd (initiate env (init urls)))))
  = List.length (filter is_remote urls)
  /\ requested (snd (initiate env (init urls))) = filter is_remote urls
  /\ opened_files (snd (initiate env (init urls)))
     = flat_map (local_files_of env) urls
  /\ map name (handed (snd (initiate env (init urls))))
     = filter (openable env) (flat_map (local_files_of env) urls)
  /\ _done_count (self (snd (initiate env (init urls))))
     = List.length
         (filter (openable env) (flat_map (local_files_of env) urls))
  /\ all_done_args (snd (initiate env (init urls)))
     = (if existsb is_remote urls then []
        else [List.length
                (filter (openable env)
                   (flat_map (local_files_of env) urls))]).
Proof.
  remember (initiate env (init urls)) as res eqn:Hres.
  unfold initiate, bind, gets, modify in Hres. cbn -[for_each] in Hres.
  destruct urls as [|u rest].
  - cbn in Hres. unfold call_user_cb_all, log in Hres. cbn in Hres.
    subst res. break_inner; cbn; discriminate.
  - cbn -[for_each] in Hres.
    match type of Hres with
    | context [for_each ?xs ?f ?w1] =>
        assert (Hready : ready w1) by (split; [reflexivity|constructor]);
        assert (Hreg : registering w1)
          by (unfold registering, all_done_calls, count; cbn; auto);
        apply (registering_registration env xs) in Hreg;
        destruct (for_each xs f w1) as [[[]|e] w2] eqn:Hloop
    end; cbn in Hreg; destruct Hreg as (_ & Hflag & _).
    2:{ subst res. cbn. congruence. }
    intros _.
    pose proof (@registration_registers env _ _ _ Hready Hloop) as H.
    rewrite filter_nil_existsb.
    remember (filter is_remote (u :: rest)) as rem.
    remember (flat_map (local_files_of env) (u :: rest)) as files.
    destruct H as (Hlen & Hreq & Hopen & Hhand & Hdone & Hargs & _).
    unfold requested, opened_files, handed, all_done_args in *.
    cbn in Hlen, Hreq, Hopen, Hhand, Hdone, Hargs.
    unfold ret in Hres. cbn in Hres.
    destruct (_in_progress (self w2)) as [|i l] eqn:Hip.
    + unfold call_user_cb_all, log in Hres. cbn in Hres.
      assert (E : exists r,
                 snd res
                 = {| self := set_finished true
                                (set_finished_registering_downloads true
                                   (self w2));
                      next_ident := next_ident w2;
                      trace := trace w2
                        ++ [{| ev := EvCbAll (_done_count (self w2)) r;
                               at_state :=
                                 set_finished true
                                   (set_finished_registering_downloads true
                                      (self w2)) |}] |}).
      { subst res. break_inner; cbn; eexists; reflexivity. }
      destruct E as (r & ->). cbn.
      rewrite !flat_map_app. cbn. rewrite !app_nil_r, Hip.
      cbn in Hlen. rewrite <- Hlen. cbn.
      repeat split; auto; rewrite ?Hargs, ?Hdone; auto.
    + subst res. cbn. rewrite Hip. rewrite <- Hlen. cbn.
      repeat split; auto.
Qed.

(** X15.  When [initiate] on a new coordinator has marked registration
    complete, it has handed to the download manager exactly the sources
    whose scheme is not [file], once each and in the order of the list. *)
Theorem initiate_requests_remote_sources env urls :
  _finished_registering_downloads (self (snd (initiate env (init urls))))
  = true ->
  requested (snd (initiate env (init urls))) = filter is_remote urls.
Proof.
  intros Hflag. apply (initiate_summary env urls Hflag).
Qed.

Lemma initiate_requests_remote_sources_witness :
  requested
    (snd (initiate quiet_env (init [https_url; file_url "/lists"; https_url])))
  = [https_url; https_url].
Proof.
  apply (@initiate_requests_remote_sources quiet_env
           [https_url; file_url "/lists"; https_url]).
  reflexivity.
Defined.

(** X16.  When [initiate] on a new coordinator has marked registration
    complete, it has tried to open the local files of the sources in the
    order of the list (for a directory its file entries, in the order of
    [os.scandir]); and when no source is remote, the callback for single
    downloads has received, in that same order, one stream for each of
    those files that could be opened. *)
Theorem initiate_delivers_local_files_in_order env urls :
  _finished_registering_downloads (self (snd (initiate env (init urls))))
  = true ->
  opened_files (snd (initiate env (init urls)))
  = flat_map (local_files_of env) urls
  /\ (forallb (fun u => negb (is_remote u)) urls = true ->
      map name (handed (snd (initiate env (init urls))))
      = filter (openable env) (flat_map (local_files_of env) urls)).
Proof.
  intros Hflag.
  destruct (initiate_summary env urls Hflag) as (_ & _ & H1 & H2 & _).
  auto.
Qed.

Lemma initiate_delivers_local_files_in_order_witness :
  opened_files
    (snd (initiate quiet_env
            (init [file_url "/etc/hosts"; file_url "/lists"])))
  = ["/etc/hosts"; "/lists/a"; "/lists/locked"]
  /\ map name
       (handed
          (snd (initiate quiet_env
                  (init [file_url "/etc/hosts"; file_url "/lists"]))))
     = ["/etc/hosts"; "/lists/a"].
Proof.
  destruct (@initiate_delivers_local_files_in_order quiet_env
              [file_url "/etc/hosts"; file_url "/lists"] eq_refl)
    as [H1 H2].
  split; [exact H1|]. apply H2. reflexivity.
Defined.



(** ** The total of a batch *)




